(** * esbuild-ifdef: the conditional-compilation preprocessor of [src/index.ts]

    A shallow embedding of [ifdefPlugin]: the directive matcher [getToken]
    (with the two built-in regular expressions), the expression evaluator
    [evalExpression], the recursive block parser [parseIf], the formatter
    [format] and the [onLoad] callback registered by [setup].

    Conventions.
    - A JavaScript string is a [string]; an [ascii] stands for one UTF-16
      code unit below 256 (larger code units are not represented).
    - [lines] is a [list string]; [lines[i]] is [nth_error lines i].
    - The JavaScript engine behind [new Function] and [eval] is a parameter,
      and so is the file system behind [readFile].
    - Mutable accumulators ([warnings] of [onLoad], the engine's global
      state) are threaded explicitly through a [state]; a thrown exception
      keeps the state reached so far.
    - The [state] also carries a ghost [trace] of the iterations of the loop
      of [parseIf] and of the calls of [evalExpression]. No definition reads
      it; the properties use it to speak of the directives that were
      reached and of the expressions that were evaluated.
    - The loops that jump forward ([i = data.end]) run on fuel; the fuel
      given is shown never to run out.
    - The console output under [settings.verbose] is not modelled. *)

From Stdlib Require Import String Ascii List Arith Bool Lia.
From Stdlib Require Import DecimalString.
From Stdlib Require Import Sorted.
Import ListNotations.

#[local] Open Scope string_scope.
#[local] Open Scope list_scope.

(** ** Strings *)

Module Str.

(** The double quote character, code unit 34. *)
Definition dquote : ascii := ascii_of_nat 34.

(** The line feed, code unit 10: the separator of [data.split] and of
    [mapped.join] in [format]. *)
Definition LF : ascii := ascii_of_nat 10.

(** [s.split(sep)] for a one-character separator. The empty string splits
    into one empty piece. *)
Fixpoint split (sep : ascii) (s : string) : list string :=
  match s with
  | EmptyString => [EmptyString]
  | String c s' =>
      if Ascii.eqb c sep then EmptyString :: split sep s'
      else match split sep s' with
           | [] => [String c EmptyString]
           | piece :: pieces => String c piece :: pieces
           end
  end.

(** [pieces.join(sep)] for a one-character separator. *)
Definition join (sep : ascii) (pieces : list string) : string :=
  String.concat (String sep EmptyString) pieces.

(** [" ".repeat(n)]. *)
Fixpoint spaces (n : nat) : string :=
  match n with
  | 0 => EmptyString
  | S n' => String " "%char (spaces n')
  end.

(** [String(n)] for a non-negative integer. *)
Definition of_nat (n : nat) : string :=
  NilZero.string_of_uint (Nat.to_uint n).

(** Whether the code unit [c] occurs in [s]. *)
Fixpoint contains (c : ascii) (s : string) : bool :=
  match s with
  | EmptyString => false
  | String c' s' => Ascii.eqb c' c || contains c s'
  end.

(** [xs.map((e, i) => f(e, i))], the index starting at [i]. *)
Fixpoint mapi_from {A B : Type} (f : A -> nat -> B) (i : nat) (xs : list A)
  : list B :=
  match xs with
  | [] => []
  | x :: xs' => f x i :: mapi_from f (S i) xs'
  end.

Definition mapi {A B : Type} (f : A -> nat -> B) (xs : list A) : list B :=
  mapi_from f 0 xs.

(** [xs.includes(n)] on an array of numbers. *)
Definition includes (xs : list nat) (n : nat) : bool :=
  existsb (Nat.eqb n) xs.

End Str.

(** ** Regular expressions

    A backtracking matcher for the constructs that occur in [regExps]:
    literals, one-character classes under a greedy or lazy star, a named
    capture group, an optional non-capturing group, sequencing and the end
    anchor. Alternatives are tried in the order of the ECMAScript
    semantics: a greedy quantifier takes one more character first, a lazy
    one tries the continuation first, an optional group is entered first. *)

Module Regex.

Inductive regex : Type :=
| Lit (c : ascii)
| Class (cls : ascii -> bool)
| Star (greedy : bool) (cls : ascii -> bool)
| Named (name : string) (r : regex)
| Opt (r : regex)
| Seq (r1 r2 : regex)
| EndAnchor.

(** The captures of the named groups that took part in the match. *)
Definition captures : Type := list (string * string).

Fixpoint lookup (name : string) (caps : captures) : option string :=
  match caps with
  | [] => None
  | (n, v) :: caps' => if String.eqb n name then Some v else lookup name caps'
  end.

(** [\s] on code units below 256: TAB, LF, VT, FF, CR, space, NBSP. *)
Definition space (c : ascii) : bool :=
  let n := nat_of_ascii c in
  ((9 <=? n)%nat && (n <=? 13)%nat) || (n =? 32)%nat || (n =? 160)%nat.

(** [.] without the [s] flag: anything but a line terminator. *)
Definition dot (c : ascii) : bool :=
  let n := nat_of_ascii c in
  negb ((n =? 10)%nat || (n =? 13)%nat).

Section Matcher.
Context {A : Type}.

(** [cls*] followed by [k], longest repetition first. *)
Fixpoint star_greedy (cls : ascii -> bool) (s : string)
         (k : string -> option A) : option A :=
  match s with
  | String c s' =>
      if cls c then
        match star_greedy cls s' k with
        | Some r => Some r
        | None => k s
        end
      else k s
  | EmptyString => k s
  end.

(** [cls*?] followed by [k], shortest repetition first. *)
Fixpoint star_lazy (cls : ascii -> bool) (s : string)
         (k : string -> option A) : option A :=
  match k s with
  | Some r => Some r
  | None =>
      match s with
      | String c s' => if cls c then star_lazy cls s' k else None
      | EmptyString => None
      end
  end.

(** The text consumed between the input [s] and its suffix [rest]. *)
Definition consumed (s rest : string) : string :=
  substring 0 (String.length s - String.length rest) s.

(** Match [r] at the head of [s], then the continuation [k] on the rest. *)
Fixpoint run (r : regex) (s : string) (caps : captures)
         (k : string -> captures -> option A) : option A :=
  match r with
  | Lit c =>
      match s with
      | String c' s' => if Ascii.eqb c' c then k s' caps else None
      | EmptyString => None
      end
  | Class cls =>
      match s with
      | String c' s' => if cls c' then k s' caps else None
      | EmptyString => None
      end
  | Star true cls => star_greedy cls s (fun rest => k rest caps)
  | Star false cls => star_lazy cls s (fun rest => k rest caps)
  | Named name r' =>
      run r' s caps (fun rest caps' => k rest ((name, consumed s rest) :: caps'))
  | Opt r' =>
      match run r' s caps k with
      | Some x => Some x
      | None => k s caps
      end
  | Seq r1 r2 => run r1 s caps (fun rest caps' => run r2 rest caps' k)
  | EndAnchor =>
      match s with
      | EmptyString => k s caps
      | String _ _ => None
      end
  end.
End Matcher.

(** The result of [line.match(re)] for a regular expression without the
    [g] flag: [index], the length of [match[0]] and the named groups. *)
Record match_result : Type := MatchResult {
  index : nat;
  matched_length : nat;
  groups : captures
}.

(** Leftmost match: every start position is tried in order. *)
Fixpoint search_from (r : regex) (s : string) (i : nat) : option match_result :=
  match run r s [] (fun rest caps => Some (rest, caps)) with
  | Some (rest, caps) =>
      Some (MatchResult i (String.length s - String.length rest) caps)
  | None =>
      match s with
      | String _ s' => search_from r s' (S i)
      | EmptyString => None
      end
  end.

Definition exec (r : regex) (s : string) : option match_result :=
  search_from r s 0.

(** Sequencing of a list of regular expressions. *)
Fixpoint seq (rs : list regex) (last : regex) : regex :=
  match rs with
  | [] => last
  | r :: rs' => Seq r (seq rs' last)
  end.

End Regex.

(** ** Settings and the built-in regular expressions *)

Import Regex.

(** The tail shared by both expressions:
    [[\s]*#(?<token>.*?)(?:[\s]+(?<expression>.*?))?[\s]*$]. *)
Definition directive_tail : regex :=
  seq [ Star true space;
        Lit "#"%char;
        Named "token" (Star false dot);
        Opt (seq [Class space; Star true space]
                 (Named "expression" (Star false dot)));
        Star true space ]
      EndAnchor.

Module regExps.

Definition double : regex :=
  seq [Lit "/"%char; Lit "/"%char] directive_tail.

Definition triple : regex :=
  seq [Lit "/"%char; Lit "/"%char; Lit "/"%char] directive_tail.

End regExps.

(** [[token, expression, column, length]]. *)
Definition tokenData : Type := (string * string * nat * nat)%type.

(** [IPluginSettings]. A custom [regExp] is given by what [line.match]
    followed by the reads of [getToken] returns for it. [verbose] and
    [filePath] are not modelled; [variables] is part of the engine. *)
Record IPluginSettings : Type := Settings {
  regExp : option (string -> option tokenData);
  requireTripleSlash : option bool;
  fillWithSpaces : option bool
}.

Definition defaultSettings : IPluginSettings := Settings None None None.

(** [getToken] for one of the built-in expressions; a group that did not
    take part reads as the empty string ([expression ?? ""]). *)
Definition getToken_with (r : regex) (line : string) : option tokenData :=
  match exec r line with
  | Some m =>
      Some (match lookup "token" (groups m) with Some t => t | None => "" end,
            match lookup "expression" (groups m) with Some e => e | None => "" end,
            index m,
            matched_length m)
  | None => None
  end.

(** [getToken], with
    [settings.regExp ?? (settings.requireTripleSlash !== false ? triple : double)]. *)
Definition getToken (settings : IPluginSettings) (line : string)
  : option tokenData :=
  match regExp settings with
  | Some custom => custom line
  | None =>
      match requireTripleSlash settings with
      | Some false => getToken_with regExps.double line
      | _ => getToken_with regExps.triple line
      end
  end.

(** ** Errors, diagnostics and the threaded state *)

(** [location] of an esbuild [Message]; [file] is added by [onLoad]. *)
Record Location : Type := mkLocation {
  loc_file : option string;
  loc_line : nat;
  loc_lineText : string;
  loc_column : option nat;
  loc_length : option nat
}.

(** A [Partial<Message>]. *)
Record Message : Type := mkMessage {
  text : string;
  location : Location
}.

(** A thrown [Error] object with the two properties the plugin adds. *)
Record Error : Type := mkError {
  message : string;
  err_line : option nat;
  err_location : option Location
}.

(** What a call of the compiled expression can do. A thrown value is an
    object (an [Error] with its message), [null], or a primitive (with its
    string conversion). *)
Inductive thrown : Type :=
| ThrownObject (msg : string)
| ThrownNull
| ThrownPrimitive (repr : string).

Inductive completion : Type :=
| Returns (truthy : bool)
| Throws (e : thrown).

(** Ghost events: [Scan start i ignore prune done] marks the top of an
    iteration of the loop of [parseIf] with the frame's variables at that
    point; [Eval line expression] marks a call of [evalExpression]. *)
Inductive event : Type :=
| Scan (start i : nat) (ignore prune done : bool)
| Eval (line : nat) (expression : string).

Inductive outcome (A : Type) : Type :=
| Return (a : A)
| Throw (e : Error)
| Stuck.
Arguments Return {A} a.
Arguments Throw {A} e.
Arguments Stuck {A}.

(** The source text of the function body,
    ['return eval("' + expression + '")']. *)
Definition body_of (expression : string) : string :=
  ("return eval(" ++ String Str.dquote expression ++ String Str.dquote ")")%string.

(** ** A stand-in engine

    The examples run the plugin on an engine that knows four expressions,
    with the results a JavaScript engine gives for them when [variables] is
    empty. Its global state counts the calls of compiled functions. An
    expression that holds a double quote ends the string literal of the
    function body early, so that [new Function] itself throws. *)

Module Demo.

Definition quoted (s : string) : string :=
  String Str.dquote (s ++ String Str.dquote "")%string.

Definition known : list (string * (string + completion)) :=
  [ ("true", inr (Returns true));
    ("false", inr (Returns false));
    ("UNSET", inr (Throws (ThrownObject "UNSET is not defined")));
    (("MODE === " ++ quoted "a")%string, inl "missing ) after argument list") ].

Fixpoint find (body : string) (table : list (string * (string + completion)))
  : string + (nat -> completion * nat) :=
  match table with
  | [] => inl "Invalid or unexpected token"
  | (expression, result) :: table' =>
      if body =? body_of expression then
        match result with
        | inl syntax_error => inl syntax_error
        | inr c => inr (fun calls => (c, S calls))
        end
      else find body table'
  end.

Definition newFunction (body : string) : string + (nat -> completion * nat) :=
  find body known.

(** A file given by its lines. *)
Definition file (lines : list string) : string := Str.join Str.LF lines.

(** The example of the documentation: an [if] that fails, with an [else]. *)
Definition if_else : list string :=
  ["///#if false"; "a"; "///#else"; "b"; "///#endif"].


(** An [if] block nested in a branch that is not taken. *)
Definition nested_in_inactive : list string :=
  ["///#if false"; "///#if UNSET"; "b"; "///#endif"; "///#endif"].

(** Two [if] directives, neither of them closed. *)
Definition nested_unterminated : list string :=
  ["x"; "///#if true"; "y"; "///#if true"; "z"].

(** An [elif] whose expression holds a string literal. *)
Definition quoted_elif : list string :=
  ["///#if false"; "a"; ("///#elif MODE === " ++ quoted "a")%string; "b";
   "///#endif"].

(** A warning and an error in a branch that is taken. *)
Definition warning_then_error : list string :=
  ["///#if true"; "///#warning careful"; "///#error boom"; "///#endif"].

(** An error in a branch that is not taken. *)
Definition inactive_error : list string :=
  ["///#if false"; "///#error boom"; "///#endif"].

(** A directive outside every [if] block. *)
Definition top_level_warning : list string :=
  ["///#warning top"; "x"].

(** An [else] after the branch that matched. *)
Definition else_after_match : list string :=
  ["///#if true"; "a"; "///#else"; "b"; "///#endif"].

(** A warning in a branch that is not taken. *)
Definition inactive_warning : list string :=
  ["///#if false"; "///#warning never"; "///#endif"].

(** A disk with one file: reading any other path is rejected, with an
    error that has no [location]. *)
Definition missing : Error :=
  mkError "ENOENT: no such file or directory" None None.

Definition readFile (path : string) : Error + string :=
  if path =? "a.ts" then inr (file if_else) else inl missing.

End Demo.

(** A location that [locate] can produce: a line of the file, counted from
    one, with the text of that line and, when that line is a directive, the
    column and length of the directive. *)
Definition located_in (settings : IPluginSettings) (lines : list string)
           (file : option string) (loc : Location) : Prop :=
  exists l text,
    nth_error lines l = Some text /\
    loc = match getToken settings text with
          | Some (_, _, column, length) =>
              mkLocation file (l + 1) text (Some column) (Some length)
          | None => mkLocation file (l + 1) text None None
          end.

Section Plugin.

(** The JavaScript engine: its global state and [new Function(...keys, body)],
    which either throws a [SyntaxError] (left, with its message) or returns
    the function [fn] (right); [fn(...values)] runs in the global state. *)
Variable World : Type.
Variable newFunction : string -> string + (World -> completion * World).

Variable settings : IPluginSettings.

Record state : Type := mkState {
  world : World;
  warnings : list Message;
  trace : list event
}.

Definition note (ev : event) (st : state) : state :=
  mkState (world st) (warnings st) (trace st ++ [ev]).

(** The callback [warn] that [onLoad] passes to [format]; the file name is
    added when [onLoad] returns. *)
Definition warn (msg : Message) (st : state) : state :=
  mkState (world st) (warnings st ++ [msg]) (trace st).

(** [evalExpression]. [new Function] is called before the [try]: what it
    throws carries no [line]. In the [catch], [e.line = line] on [null]
    throws a [TypeError] of its own. *)
Definition evalExpression (expression : string) (line : nat) (st : state)
  : outcome bool * state :=
  let st := note (Eval line expression) st in
  match newFunction (body_of expression) with
  | inl syntax_error => (Throw (mkError syntax_error None None), st)
  | inr fn =>
      let (res, w) := fn (world st) in
      let st := mkState w (warnings st) (trace st) in
      match res with
      | Returns truthy => (Return truthy, st)
      | Throws (ThrownObject msg) => (Throw (mkError msg (Some line) None), st)
      | Throws ThrownNull =>
          (Throw (mkError "Cannot set properties of null (setting 'line')"
                          None None), st)
      | Throws (ThrownPrimitive repr) =>
          (Throw (mkError ("Error executing expression: " ++ repr)
                          (Some line) None), st)
      end
  end.

(** The [catch] block of [parseIf]: the error is located at [err.line ?? start]
    and thrown again. [lines[line]] out of range makes [getToken] throw. *)
Definition locate (lines : list string) (start : nat) (err : Error) : Error :=
  let line := match err_line err with Some l => l | None => start end in
  match nth_error lines line with
  | None =>
      mkError "Cannot read properties of undefined (reading 'match')" None None
  | Some lineText =>
      match getToken settings lineText with
      | Some (_, _, column, length) =>
          mkError (message err) (err_line err)
                  (Some (mkLocation None (line + 1) lineText
                                    (Some column) (Some length)))
      | None =>
          mkError (message err) (err_line err)
                  (Some (mkLocation None (line + 1) lineText None None))
      end
  end.

Definition catch {A : Type} (lines : list string) (start : nat)
           (r : outcome A * state)
  : outcome A * state :=
  match r with
  | (Throw err, st) => (Throw (locate lines start err), st)
  | _ => r
  end.

(** The second [switch] of the loop body: [else], [elseif] and [elif] update
    [prune] and [done]. *)
Definition branch (token expression : string) (i : nat) (prune done : bool)
           (st : state) : outcome (bool * bool) * state :=
  if token =? "else" then (Return (done, done), st)
  else if (token =? "elseif") || (token =? "elif") then
    match evalExpression expression i st with
    | (Return exp, st) =>
        (Return (done || negb exp, if negb done then exp else done), st)
    | (Throw e, st) => (Throw e, st)
    | (Stuck, st) => (Stuck, st)
    end
  else (Return (prune, done), st).

(** The loop of [parseIf] from index [i], in the frame opened at [start],
    with the local variables [prune], [done] and [remove]. [fuel] bounds
    the number of iterations and nested calls. The recursive call
    [parseIf(warn, file, lines, i, prune || ignore)] is the loop of the
    nested frame under the [catch] of that frame. *)
Fixpoint parseIf_loop (lines : list string) (fuel start : nat)
         (ignore : bool) (i : nat)
         (prune done : bool) (remove : list nat) (st : state)
  : outcome (nat * list nat) * state :=
  match fuel with
  | 0 => (Stuck, st)
  | S fuel =>
      match nth_error lines i with
      | None =>
          (* i = lines.length: the loop is left *)
          (Throw (mkError ("Unterminated #if found on line " ++ Str.of_nat start)
                          None None), st)
      | Some line =>
          let st := note (Scan start i ignore prune done) st in
          let tokenData := getToken settings line in
          let remove := if prune || ignore then remove ++ [i] else remove in
          match tokenData with
          | None =>
              parseIf_loop lines fuel start ignore (S i) prune done remove st
          | Some (token, expression, column, length) =>
              let remove := remove ++ [i] in
              if token =? "if" then
                if negb (i =? start)%nat then
                  match catch lines i
                              (parseIf_loop lines fuel i (prune || ignore) i
                                            false false [] st) with
                  | (Return (end_, removed), st) =>
                      parseIf_loop lines fuel start ignore (S end_) prune done
                                   (remove ++ removed) st
                  | (Throw e, st) => (Throw e, st)
                  | (Stuck, st) => (Stuck, st)
                  end
                else
                  match evalExpression expression i st with
                  | (Return exp, st) =>
                      parseIf_loop lines fuel start ignore (S i) (negb exp) exp
                                   remove st
                  | (Throw e, st) => (Throw e, st)
                  | (Stuck, st) => (Stuck, st)
                  end
              else if token =? "endif" then (Return (i, remove), st)
              else if ignore || (prune && done) then
                parseIf_loop lines fuel start ignore (S i) prune done remove st
              else
                match branch token expression i prune done st with
                | (Return (prune, done), st) =>
                    if prune then
                      parseIf_loop lines fuel start ignore (S i) prune done
                                   remove st
                    else if (token =? "warning") || (token =? "warn") then
                      parseIf_loop lines fuel start ignore (S i) prune done
                        remove
                        (warn (mkMessage expression
                                 (mkLocation None (i + 1) line
                                             (Some column) (Some length)))
                              st)
                    else if (token =? "error") || (token =? "err") then
                      (Throw (mkError expression (Some i) None), st)
                    else
                      parseIf_loop lines fuel start ignore (S i) prune done
                                   remove st
                | (Throw e, st) => (Throw e, st)
                | (Stuck, st) => (Stuck, st)
                end
          end
      end
  end.

(** Fuel for a whole frame: two units per line and one for the end test. *)
Definition enough (lines : list string) : nat := S (2 * length lines).

(** [parseIf(warn, file, lines, start, ignore)]: the loop under its
    [try]/[catch]. *)
Definition parseIf_fuel (lines : list string) (fuel start : nat)
           (ignore : bool) (st : state)
  : outcome (nat * list nat) * state :=
  catch lines start
        (parseIf_loop lines fuel start ignore start false false [] st).

Definition parseIf (lines : list string) (start : nat) (ignore : bool)
           (st : state)
  : outcome (nat * list nat) * state :=
  parseIf_fuel lines (enough lines) start ignore st.

(** The first loop of [format]: the top-level scan for [if] directives. *)
Fixpoint format_loop (lines : list string) (fuel i : nat)
         (remove : list nat) (st : state)
  : outcome (list nat) * state :=
  match fuel with
  | 0 => (Stuck, st)
  | S fuel =>
      match nth_error lines i with
      | None => (Return remove, st)
      | Some line =>
          match getToken settings line with
          | Some (token, _, _, _) =>
              if token =? "if" then
                match parseIf lines i false st with
                | (Return (end_, removed), st) =>
                    format_loop lines fuel (S end_) (remove ++ removed) st
                | (Throw e, st) => (Throw e, st)
                | (Stuck, st) => (Stuck, st)
                end
              else format_loop lines fuel (S i) remove st
          | None => format_loop lines fuel (S i) remove st
          end
      end
  end.

(** The suppression list [remove] that [format] accumulates. *)
Definition suppressed (lines : list string) (st : state)
  : outcome (list nat) * state :=
  format_loop lines (S (length lines)) 0 [] st.

(** How [format] renders line [e] of index [i]. *)
Definition render (remove : list nat) (e : string) (i : nat) : string :=
  if Str.includes remove i then
    match fillWithSpaces settings with
    | Some true => Str.spaces (String.length e)
    | _ => "//" ++ e
    end
  else e.

(** [format(data, file, warn)]. *)
Definition format (data : string) (st : state) : outcome string * state :=
  let lines := Str.split Str.LF data in
  match suppressed lines st with
  | (Return remove, st) =>
      (Return (Str.join Str.LF (Str.mapi (render remove) lines)), st)
  | (Throw e, st) => (Throw e, st)
  | (Stuck, st) => (Stuck, st)
  end.

(** What the [onLoad] callback gives back to esbuild: the transformed
    contents, the rejection of the file with one error, or an exception
    that leaves the callback. *)
Inductive OnLoadResult : Type :=
| Loaded (contents : string) (warnings : list Message) (loader : string)
| Rejected (warnings : list Message) (errors : list Message)
| Uncaught (e : Error)
| Diverged.

Definition loaders : list string := ["tsx"; "jsx"; "ts"; "js"].

Definition with_file (path : string) (loc : Location) : Location :=
  mkLocation (Some path) (loc_line loc) (loc_lineText loc)
             (loc_column loc) (loc_length loc).

(** The array [warnings] of [onLoad]: what [warn] received, each with the
    file name added. *)
Definition reported (path : string) (st : state) : list Message :=
  map (fun msg => mkMessage (text msg) (with_file path (location msg)))
      (warnings st).

(** The callback of [build.onLoad] on a file [path] whose contents [data]
    were read, in the engine state [w]. *)
Definition onLoad (path data : string) (w : World) : OnLoadResult * state :=
  let (r, st) := format data (mkState w [] []) in
  (match r with
   | Return formatted =>
       let ext := last (Str.split "."%char path) "" in
       Loaded formatted (reported path st)
              (if existsb (String.eqb ext) loaders then ext else "js")
   | Throw e =>
       match err_location e with
       | None => Uncaught e
       | Some loc =>
           Rejected (reported path st)
                    [mkMessage (message e) (with_file path loc)]
       end
   | Stuck => Diverged
   end, st).

(** The callback of [build.onLoad] from its first statement:
    [fs.promises.readFile(args.path, 'utf8')] either rejects with an error
    or gives the contents. The [await] is inside the [try], so that a
    rejection reaches the same [catch] as an error of [format], with
    [warnings] still empty; in [{file: args.path, ...e.location}] a [file]
    of [e.location] wins. *)
Definition onLoadCallback (readFile : string -> Error + string)
           (path : string) (w : World) : OnLoadResult * state :=
  match readFile path with
  | inr data => onLoad path data w
  | inl e =>
      (match err_location e with
       | None => Uncaught e
       | Some loc =>
           Rejected []
                    [mkMessage (message e)
                       (mkLocation (match loc_file loc with
                                    | Some file => Some file
                                    | None => Some path
                                    end)
                                   (loc_line loc) (loc_lineText loc)
                                   (loc_column loc) (loc_length loc))]
       end, mkState w [] [])
  end.


(** ** Vocabulary of the properties *)

(** The error thrown when the loop of [parseIf] runs off the end. *)
Definition unterminated (start : nat) : Error :=
  mkError ("Unterminated #if found on line " ++ Str.of_nat start) None None.

(** [if (b) remove.push(i)]. *)
Definition push_if (b : bool) (remove : list nat) (i : nat) : list nat :=
  if b then remove ++ [i] else remove.

Definition is_warning (token : string) : bool :=
  (token =? "warning") || (token =? "warn").

Definition is_error (token : string) : bool :=
  (token =? "error") || (token =? "err").

(** The diagnostic that a [warning] directive passes to [warn]. *)
Definition diagnostic (i : nat) (line expression : string) (column length : nat)
  : Message :=
  mkMessage expression
            (mkLocation None (i + 1) line (Some column) (Some length)).

(** The fuel that the loop needs at index [i] of the frame opened at
    [start]. *)
Definition need (lines : list string) (start i : nat) : nat :=
  2 * (length lines - i) + (if (i =? start)%nat then 1 else 2).

(** What a [warning] directive passes to [warn] at the iteration that the
    event marks: one diagnostic when the frame is neither pruning nor
    ignored there, nothing otherwise. *)
Definition emitted (lines : list string) (ev : event) : list Message :=
  match ev with
  | Scan start i ignore prune done =>
      match nth_error lines i with
      | Some line =>
          match getToken settings line with
          | Some (token, expression, column, length) =>
              if is_warning token && negb prune && negb ignore
              then [diagnostic i line expression column length]
              else []
          | None => []
          end
      | None => []
      end
  | Eval _ _ => []
  end.

(** From [st] to [st'] the trace grew by some events and the warnings by
    what these events emit. *)
Definition grows (lines : list string) (st st' : state) : Prop :=
  exists evs,
    trace st' = trace st ++ evs /\
    warnings st' = warnings st ++ flat_map (emitted lines) evs.

(** Line [j] was scanned by the loop of [parseIf]. *)
Definition scanned (st : state) (j : nat) : Prop :=
  exists s ig pr dn, In (Scan s j ig pr dn) (trace st).

(** Every [error] directive scanned since [st] in a frame that was neither
    pruning nor ignored is what [r] throws. *)
Definition raises_at (lines : list string) (st : state)
           (r : outcome (nat * list nat) * state) : Prop :=
  forall s j dn line token expression column length,
    In (Scan s j false false dn) (trace (snd r)) ->
    nth_error lines j = Some line ->
    getToken settings line = Some (token, expression, column, length) ->
    is_error token = true ->
    In (Scan s j false false dn) (trace st) \/
    exists loc, fst r = Throw (mkError expression (Some j) loc).

(** When [r] returns, its suppression list extends [remove] and holds every
    directive line scanned since [st]. *)
Definition suppresses_at (lines : list string) (remove : list nat) (st : state)
           (r : outcome (nat * list nat) * state) : Prop :=
  forall end_ removed,
    fst r = Return (end_, removed) ->
    incl remove removed /\
    forall s j ig pr dn line td,
      In (Scan s j ig pr dn) (trace (snd r)) ->
      nth_error lines j = Some line ->
      getToken settings line = Some td ->
      In (Scan s j ig pr dn) (trace st) \/ In j removed.

(** The trace of [st'] extends the trace of [st]. *)
Definition prefix (st st' : state) : Prop :=
  exists evs, trace st' = trace st ++ evs.

(** Two states that differ at most in their ghost trace. *)
Definition agree (st1 st2 : state) : Prop :=
  world st1 = world st2 /\ warnings st1 = warnings st2.

(** What a scan of line [j] under the frame flags [ig] and [pr] means for
    the suppression list: an inactive scan puts [j] in the list, an active
    one leaves it out unless it was there before. *)
Definition settled (remove removed : list nat) (j : nat) (ig pr : bool)
  : Prop :=
  if pr || ig then In j removed else In j removed -> In j remove.


(** The line (counted from one) that a diagnostic points to. *)
Definition line_of (msg : Message) : nat := loc_line (location msg).

(** The diagnostics [msgs] point to strictly increasing lines, none beyond
    line [bound]. *)
Definition in_order (bound : nat) (msgs : list Message) : Prop :=
  StronglySorted lt (map line_of msgs) /\
  Forall (fun msg => line_of msg <= bound) msgs.

(** The lines whose expressions were passed to the evaluator, in the order
    of the calls. *)
Definition evaluations (evs : list event) : list nat :=
  flat_map (fun ev => match ev with
                      | Eval line _ => [line]
                      | Scan _ _ _ _ _ => []
                      end) evs.

(** Up to [st] the evaluator was called on strictly increasing lines, all
    before line [bound]. *)
Definition evaluated_below (bound : nat) (st : state) : Prop :=
  StronglySorted lt (evaluations (trace st)) /\
  Forall (fun line => line < bound) (evaluations (trace st)).

(** The iterations of the loop of [parseIf] at line [j], in order. *)
Definition scans_of (j : nat) (evs : list event) : list event :=
  filter (fun ev => match ev with
                    | Scan _ i _ _ _ => (i =? j)%nat
                    | Eval _ _ => false
                    end) evs.

(** Line [j] is an [if] directive. *)
Definition is_if (lines : list string) (j : nat) : Prop :=
  exists line expression column length,
    nth_error lines j = Some line /\
    getToken settings line = Some ("if", expression, column, length).

(** Up to [st] no line after [bound] was scanned. *)
Definition scanned_through (bound : nat) (st : state) : Prop :=
  forall j, scans_of j (trace st) <> [] -> j <= bound.

(** Up to [st] every line other than an [if] directive was scanned at most
    once. An [if] directive inside a block is scanned twice: by the frame
    around it and by its own frame. *)
Definition scanned_once (lines : list string) (st : state) : Prop :=
  forall j, ~ is_if lines j -> length (scans_of j (trace st)) <= 1.

(** What the loop of the frame opened at [start] finds at index [i]: only
    earlier lines were scanned, but for the [if] directive of the frame
    itself. *)
Definition frame_entry (lines : list string) (start i : nat) (st : state)
  : Prop :=
  forall j, scans_of j (trace st) <> [] ->
            j < i \/ (j = i /\ i = start /\ is_if lines i).

(** * Properties *)

(** ** Splitting and joining lines *)

Lemma split_not_nil sep s : Str.split sep s <> [].
Proof.
  destruct s as [|c s]; cbn; [discriminate|].
  destruct (Ascii.eqb c sep); [discriminate|].
  destruct (Str.split sep s); discriminate.
Qed.

Lemma split_pieces_free sep s :
  Forall (fun piece => Str.contains sep piece = false) (Str.split sep s).
Proof.
  induction s as [|c s IH]; cbn.
  - repeat constructor.
  - destruct (Ascii.eqb c sep) eqn:Hc.
    + constructor; [reflexivity|exact IH].
    + destruct (Str.split sep s) as [|piece pieces].
      * repeat constructor. cbn. now rewrite Hc.
      * inversion IH; subst. constructor; [|assumption].
        cbn. now rewrite Hc.
Qed.

Lemma split_free sep s :
  Str.contains sep s = false -> Str.split sep s = [s].
Proof.
  induction s as [|c s IH]; cbn; [reflexivity|].
  intros H. apply orb_false_iff in H as [Hc Hs].
  now rewrite Hc, (IH Hs).
Qed.

Lemma split_app_sep sep s rest :
  Str.contains sep s = false ->
  Str.split sep (s ++ String sep rest) = s :: Str.split sep rest.
Proof.
  induction s as [|c s IH]; cbn.
  - now rewrite Ascii.eqb_refl.
  - intros H. apply orb_false_iff in H as [Hc Hs].
    now rewrite Hc, (IH Hs).
Qed.

Lemma split_join sep pieces :
  pieces <> [] ->
  Forall (fun piece => Str.contains sep piece = false) pieces ->
  Str.split sep (Str.join sep pieces) = pieces.
Proof.
  unfold Str.join.
  induction pieces as [|piece pieces IH]; [congruence|].
  intros _ Hfree. inversion Hfree as [|? ? Hpiece Hrest]; subst.
  destruct pieces as [|piece' pieces].
  - cbn. now apply split_free.
  - change (String.concat (String sep "") (piece :: piece' :: pieces))
      with (piece ++ String sep
                       (String.concat (String sep "") (piece' :: pieces)))%string.
    rewrite split_app_sep by assumption.
    f_equal. apply IH; [discriminate|assumption].
Qed.

Lemma spaces_length n : String.length (Str.spaces n) = n.
Proof. induction n; cbn; congruence. Qed.

Lemma spaces_free c n : c <> " "%char -> Str.contains c (Str.spaces n) = false.
Proof.
  intros Hc. induction n as [|n IH]; [reflexivity|].
  cbn [Str.spaces Str.contains].
  rewrite IH, orb_false_r. apply Ascii.eqb_neq. congruence.
Qed.

Lemma mapi_from_length {A B} (f : A -> nat -> B) xs :
  forall k, length (Str.mapi_from f k xs) = length xs.
Proof. induction xs; cbn; intros; [reflexivity|now rewrite IHxs]. Qed.

Lemma mapi_from_nth {A B} (f : A -> nat -> B) xs :
  forall k i,
    nth_error (Str.mapi_from f k xs) i
    = option_map (fun x => f x (k + i)) (nth_error xs i).
Proof.
  induction xs as [|x xs IH]; intros k [|i]; cbn; try reflexivity.
  - now rewrite Nat.add_0_r.
  - rewrite IH. now rewrite Nat.add_succ_r.
Qed.

Lemma mapi_from_Forall {A B} (f : A -> nat -> B) (Q : A -> Prop) (R : B -> Prop) xs :
  (forall x i, Q x -> R (f x i)) ->
  Forall Q xs -> forall k, Forall R (Str.mapi_from f k xs).
Proof.
  intros Hf H. induction H; cbn; intros; constructor; auto.
Qed.

(** ** Rendering *)

Lemma render_free remove e i :
  Str.contains Str.LF e = false ->
  Str.contains Str.LF (render remove e i) = false.
Proof.
  intros He. unfold render.
  destruct (Str.includes remove i); [|exact He].
  destruct (fillWithSpaces settings) as [[|]|]; try exact He.
  apply spaces_free. discriminate.
Qed.

Lemma format_returns data st out st' :
  format data st = (Return out, st') ->
  exists remove,
    suppressed (Str.split Str.LF data) st = (Return remove, st') /\
    Str.split Str.LF out
    = Str.mapi (render remove) (Str.split Str.LF data).
Proof.
  unfold format. intros H.
  destruct (suppressed _ st) as [[remove|e|] st2]; inversion H; subst.
  exists remove. split; [reflexivity|].
  apply split_join.
  - unfold Str.mapi. pose proof (split_not_nil Str.LF data) as Hne.
    destruct (Str.split Str.LF data); [congruence|discriminate].
  - unfold Str.mapi.
    eapply mapi_from_Forall; [|apply split_pieces_free].
    intros x i Hx. now apply render_free.
Qed.

(** C1. Whenever [format] returns, the text it returns has as many lines
    (pieces between line feeds) as the input text. *)
Theorem format_preserves_line_count data st out st' :
  format data st = (Return out, st') ->
  length (Str.split Str.LF out) = length (Str.split Str.LF data).
Proof.
  intros H. apply format_returns in H as (remove & _ & ->).
  apply mapi_from_length.
Qed.

(** C2. Whenever [format] returns, line [i] of the output is: for an index
    of the accumulated suppression list, as many spaces as the input line
    is long when [fillWithSpaces] is set, and the input line after [//]
    otherwise; for any other index, the input line itself. *)
Theorem format_renders_each_line data st out st' :
  format data st = (Return out, st') ->
  exists remove,
    suppressed (Str.split Str.LF data) st = (Return remove, st') /\
    forall i e,
      nth_error (Str.split Str.LF data) i = Some e ->
      exists e',
        nth_error (Str.split Str.LF out) i = Some e' /\
        if Str.includes remove i then
          match fillWithSpaces settings with
          | Some true =>
              e' = Str.spaces (String.length e) /\
              String.length e' = String.length e
          | _ => e' = ("//" ++ e)%string
          end
        else e' = e.
Proof.
  intros H. apply format_returns in H as (remove & Hsup & ->).
  exists remove. split; [exact Hsup|].
  intros i e He. unfold Str.mapi. rewrite mapi_from_nth, He. cbn.
  eexists. split; [reflexivity|].
  unfold render. destruct (Str.includes remove i); [|reflexivity].
  destruct (fillWithSpaces settings) as [[|]|]; try reflexivity.
  split; [reflexivity|apply spaces_length].
Qed.

(** ** The loop of [parseIf], case by case *)

Lemma evalExpression_not_stuck expression line st :
  fst (evalExpression expression line st) <> Stuck.
Proof.
  unfold evalExpression.
  destruct (newFunction (body_of expression)) as [msg|fn]; cbn; [discriminate|].
  destruct (fn _) as [[truthy|[msg| |repr]] w]; cbn; discriminate.
Qed.

Lemma branch_not_stuck token expression i prune done st :
  fst (branch token expression i prune done st) <> Stuck.
Proof.
  unfold branch.
  destruct (token =? "else"); [cbn; discriminate|].
  destruct ((token =? "elseif") || (token =? "elif")); [|cbn; discriminate].
  pose proof (evalExpression_not_stuck expression i st) as H.
  destruct (evalExpression expression i st) as [[exp|e|] st2]; cbn in *;
    congruence.
Qed.

Lemma is_error_spec token :
  is_error token = true <-> token = "error" \/ token = "err".
Proof.
  unfold is_error. rewrite orb_true_iff, !String.eqb_eq. reflexivity.
Qed.

Lemma is_warning_spec token :
  is_warning token = true <-> token = "warning" \/ token = "warn".
Proof.
  unfold is_warning. rewrite orb_true_iff, !String.eqb_eq. reflexivity.
Qed.

(** ** What [evalExpression] throws *)

(** When [new Function] throws, the error leaves [evalExpression] without
    a [line]. *)
Lemma evalExpression_rejected expression line st syntax_error :
  newFunction (body_of expression) = inl syntax_error ->
  evalExpression expression line st
  = (Throw (mkError syntax_error None None), note (Eval line expression) st).
Proof. intros H. unfold evalExpression. now rewrite H. Qed.

(** What the compiled function throws gets the directive's [line], unless
    it is [null]. *)
Lemma evalExpression_raised expression line st fn e st' :
  newFunction (body_of expression) = inr fn ->
  fst (fn (world st)) <> Throws ThrownNull ->
  evalExpression expression line st = (Throw e, st') ->
  err_line e = Some line.
Proof.
  intros Hfn Hnull. unfold evalExpression. rewrite Hfn. cbn [note world].
  destruct (fn (world st)) as [[truthy|[msg| |repr]] w']; cbn in *;
    intros H; inversion H; subst; try reflexivity.
  now elim Hnull.
Qed.

(** ** The trace is a ghost

    What the functions return, and what they do to the engine and to the
    warnings, does not depend on the trace. *)

Lemma agree_note ev1 ev2 st1 st2 :
  agree st1 st2 -> agree (note ev1 st1) (note ev2 st2).
Proof. now intros [Hw Hd]. Qed.

Lemma agree_warn msg st1 st2 :
  agree st1 st2 -> agree (warn msg st1) (warn msg st2).
Proof. intros [Hw Hd]. split; cbn; congruence. Qed.

Lemma evalExpression_agree expression line st1 st2 :
  agree st1 st2 ->
  fst (evalExpression expression line st1)
  = fst (evalExpression expression line st2) /\
  agree (snd (evalExpression expression line st1))
        (snd (evalExpression expression line st2)).
Proof.
  intros [Hw Hd]. unfold evalExpression.
  destruct (newFunction (body_of expression)) as [msg|fn]; cbn.
  - split; [reflexivity|now split].
  - rewrite Hw.
    destruct (fn (world st2)) as [[truthy|[msg| |repr]] w']; cbn;
      (split; [reflexivity|now split]).
Qed.

Lemma branch_agree token expression i prune done st1 st2 :
  agree st1 st2 ->
  fst (branch token expression i prune done st1)
  = fst (branch token expression i prune done st2) /\
  agree (snd (branch token expression i prune done st1))
        (snd (branch token expression i prune done st2)).
Proof.
  intros H. unfold branch.
  destruct (token =? "else"); [now split|].
  destruct ((token =? "elseif") || (token =? "elif")); [|now split].
  destruct (evalExpression_agree expression i st1 st2 H) as [Hf Hs].
  destruct (evalExpression expression i st1) as [[exp1|e1|] st1'],
           (evalExpression expression i st2) as [[exp2|e2|] st2'];
    cbn in *; try discriminate; inversion Hf; subst; now split.
Qed.

Lemma parseIf_loop_agree lines fuel :
  forall start ignore i prune done remove st1 st2,
    agree st1 st2 ->
    fst (parseIf_loop lines fuel start ignore i prune done remove st1)
    = fst (parseIf_loop lines fuel start ignore i prune done remove st2) /\
    agree (snd (parseIf_loop lines fuel start ignore i prune done remove st1))
          (snd (parseIf_loop lines fuel start ignore i prune done remove st2)).
Proof.
  induction fuel as [|fuel IH]; intros start ignore i prune done remove
                                       st1 st2 Hst; [now split|].
  cbn [parseIf_loop].
  destruct (nth_error lines i) as [line|]; [|now split].
  pose proof (agree_note (Scan start i ignore prune done)
                         (Scan start i ignore prune done) _ _ Hst) as Hn.
  destruct (getToken settings line) as [[[[token expression] column] length]|];
    [|now apply IH].
  destruct (token =? "if").
  - destruct (negb (i =? start)%nat).
    + destruct (IH i (prune || ignore) i false false [] _ _ Hn) as [Hf Hs].
      destruct (parseIf_loop lines fuel i _ i false false [] (note _ st1))
        as [[[end1 rm1]|e1|] st1'],
        (parseIf_loop lines fuel i _ i false false [] (note _ st2))
        as [[[end2 rm2]|e2|] st2'];
        cbn in *; try discriminate; inversion Hf; subst;
        [now apply IH | now split | now split].
    + destruct (evalExpression_agree expression i _ _ Hn) as [Hf Hs].
      destruct (evalExpression expression i (note _ st1)) as [[x1|e1|] st1'],
               (evalExpression expression i (note _ st2)) as [[x2|e2|] st2'];
        cbn in *; try discriminate; inversion Hf; subst;
        [now apply IH | now split | now split].
  - destruct (token =? "endif"); [now split|].
    destruct (ignore || prune && done); [now apply IH|].
    destruct (branch_agree token expression i prune done _ _ Hn) as [Hf Hs].
    destruct (branch token expression i prune done (note _ st1))
      as [[[p1 d1]|e1|] st1'],
      (branch token expression i prune done (note _ st2))
      as [[[p2 d2]|e2|] st2'];
      cbn in *; try discriminate; inversion Hf; subst; try now split.
    destruct p2; [now apply IH|].
    destruct ((token =? "warning") || (token =? "warn"));
      [now apply IH, agree_warn|].
    destruct ((token =? "error") || (token =? "err")); [now split|].
    now apply IH.
Qed.

Section Frames.

Variable lines : list string.

Section Cases.

Variable P : nat -> nat -> bool -> nat -> bool -> bool -> list nat -> state ->
             outcome (nat * list nat) * state -> Prop.

Hypothesis case_stuck : forall start ignore i prune done remove st,
  P 0 start ignore i prune done remove st (Stuck, st).

Hypothesis case_end_of_input : forall fuel start ignore i prune done remove st,
  nth_error lines i = None ->
  P (S fuel) start ignore i prune done remove st (Throw (unterminated start), st).

Hypothesis case_plain : forall fuel start ignore i prune done remove st line,
  nth_error lines i = Some line ->
  getToken settings line = None ->
  let r := parseIf_loop lines fuel start ignore (S i) prune done
             (push_if (prune || ignore) remove i)
             (note (Scan start i ignore prune done) st) in
  P fuel start ignore (S i) prune done (push_if (prune || ignore) remove i)
    (note (Scan start i ignore prune done) st) r ->
  P (S fuel) start ignore i prune done remove st r.

Hypothesis case_nested : forall fuel start ignore i prune done remove st line
                                expression column length,
  nth_error lines i = Some line ->
  getToken settings line = Some ("if", expression, column, length) ->
  i <> start ->
  let st1 := note (Scan start i ignore prune done) st in
  let r1 := parseIf_loop lines fuel i (prune || ignore) i false false [] st1 in
  P fuel i (prune || ignore) i false false [] st1 r1 ->
  match catch lines i r1 with
  | (Return (end_, removed), st2) =>
      let remove2 := (push_if (prune || ignore) remove i ++ [i]) ++ removed in
      let r := parseIf_loop lines fuel start ignore (S end_) prune done
                 remove2 st2 in
      P fuel start ignore (S end_) prune done remove2 st2 r ->
      P (S fuel) start ignore i prune done remove st r
  | (Throw e, st2) => P (S fuel) start ignore i prune done remove st (Throw e, st2)
  | (Stuck, st2) => P (S fuel) start ignore i prune done remove st (Stuck, st2)
  end.

Hypothesis case_opening : forall fuel start ignore prune done remove st line
                                 expression column length,
  nth_error lines start = Some line ->
  getToken settings line = Some ("if", expression, column, length) ->
  match evalExpression expression start
                       (note (Scan start start ignore prune done) st) with
  | (Return exp, st2) =>
      let remove2 := push_if (prune || ignore) remove start ++ [start] in
      let r := parseIf_loop lines fuel start ignore (S start) (negb exp) exp
                 remove2 st2 in
      P fuel start ignore (S start) (negb exp) exp remove2 st2 r ->
      P (S fuel) start ignore start prune done remove st r
  | (Throw e, st2) =>
      P (S fuel) start ignore start prune done remove st (Throw e, st2)
  | (Stuck, st2) => True
  end.

Hypothesis case_endif : forall fuel start ignore i prune done remove st line
                               expression column length,
  nth_error lines i = Some line ->
  getToken settings line = Some ("endif", expression, column, length) ->
  P (S fuel) start ignore i prune done remove st
    (Return (i, push_if (prune || ignore) remove i ++ [i]),
     note (Scan start i ignore prune done) st).

Hypothesis case_skipped : forall fuel start ignore i prune done remove st line
                                 token expression column length,
  nth_error lines i = Some line ->
  getToken settings line = Some (token, expression, column, length) ->
  token <> "if" -> token <> "endif" ->
  ignore || (prune && done) = true ->
  let remove2 := push_if (prune || ignore) remove i ++ [i] in
  let st1 := note (Scan start i ignore prune done) st in
  let r := parseIf_loop lines fuel start ignore (S i) prune done remove2 st1 in
  P fuel start ignore (S i) prune done remove2 st1 r ->
  P (S fuel) start ignore i prune done remove st r.

Hypothesis case_branch : forall fuel start i prune done remove st line
                                token expression column length,
  nth_error lines i = Some line ->
  getToken settings line = Some (token, expression, column, length) ->
  token <> "if" -> token <> "endif" ->
  prune && done = false ->
  let remove2 := push_if (prune || false) remove i ++ [i] in
  match branch token expression i prune done
               (note (Scan start i false prune done) st) with
  | (Return (prune', done'), st2) =>
      if prune' then
        let r := parseIf_loop lines fuel start false (S i) prune' done'
                   remove2 st2 in
        P fuel start false (S i) prune' done' remove2 st2 r ->
        P (S fuel) start false i prune done remove st r
      else if is_warning token then
        let st3 := warn (diagnostic i line expression column length) st2 in
        let r := parseIf_loop lines fuel start false (S i) prune' done'
                   remove2 st3 in
        P fuel start false (S i) prune' done' remove2 st3 r ->
        P (S fuel) start false i prune done remove st r
      else if is_error token then
        P (S fuel) start false i prune done remove st
          (Throw (mkError expression (Some i) None), st2)
      else
        let r := parseIf_loop lines fuel start false (S i) prune' done'
                   remove2 st2 in
        P fuel start false (S i) prune' done' remove2 st2 r ->
        P (S fuel) start false i prune done remove st r
  | (Throw e, st2) => P (S fuel) start false i prune done remove st (Throw e, st2)
  | (Stuck, st2) => True
  end.

Lemma parseIf_loop_cases fuel : forall start ignore i prune done remove st,
  P fuel start ignore i prune done remove st
    (parseIf_loop lines fuel start ignore i prune done remove st).
Proof.
  induction fuel as [|fuel IH]; intros; [apply case_stuck|].
  cbn [parseIf_loop].
  destruct (nth_error lines i) as [line|] eqn:Hline;
    [|now apply case_end_of_input].
  destruct (getToken settings line) as [[[[token expression] column] length]|]
    eqn:Htok; [|now eapply case_plain; eauto].
  destruct (String.eqb_spec token "if") as [->|Hif].
  - destruct (Nat.eqb_spec i start) as [->|Hne]; cbn [negb].
    + pose proof (case_opening fuel start ignore prune done remove st
                    line expression column length Hline Htok) as H.
      pose proof (evalExpression_not_stuck expression start
                    (note (Scan start start ignore prune done) st)) as Hns.
      destruct (evalExpression _ _ _) as [[exp|e|] st2];
        [apply H, IH | exact H | now elim Hns].
    + pose proof (case_nested fuel start ignore i prune done remove st line
                    expression column length Hline Htok Hne
                    (IH i (prune || ignore) i false false []
                        (note (Scan start i ignore prune done) st))) as H.
      destruct (catch lines i _) as [[[end_ removed]|e|] st2];
        [apply H, IH | exact H | exact H].
  - destruct (String.eqb_spec token "endif") as [->|Hendif];
      [now eapply case_endif; eauto|].
    destruct (ignore || prune && done) eqn:Hskip;
      [now eapply case_skipped; eauto|].
    apply orb_false_iff in Hskip as [-> Hpd].
    pose proof (case_branch fuel start i prune done remove st line token
                  expression column length Hline Htok Hif Hendif Hpd) as H.
    pose proof (branch_not_stuck token expression i prune done
                  (note (Scan start i false prune done) st)) as Hns.
    destruct (branch _ _ _ _ _ _) as [[[prune' done']|e|] st2];
      [|exact H|now elim Hns].
    fold (is_warning token); fold (is_error token).
    fold (diagnostic i line expression column length).
    destruct prune'; [apply H, IH|].
    destruct (is_warning token); [apply H, IH|].
    destruct (is_error token); [exact H|apply H, IH].
Qed.

End Cases.

(** ** Where a frame ends, and that fuel is never exhausted *)

Lemma catch_Return {A} start (r : outcome A * state) a st :
  catch lines start r = (Return a, st) -> r = (Return a, st).
Proof. destruct r as [[a'|e|] st']; cbn; congruence. Qed.

Lemma catch_Stuck {A} start (r : outcome A * state) st :
  catch lines start r = (Stuck, st) -> r = (Stuck, st).
Proof. destruct r as [[a'|e|] st']; cbn; congruence. Qed.

Ltac split_cases :=
  repeat match goal with
         | |- match ?x with _ => _ end => destruct x eqn:?
         | |- True => exact I
         end;
  cbv zeta; intros;
  repeat match goal with x := _ |- _ => subst x end.

Ltac by_cases Inv :=
  apply parseIf_loop_cases with (P := Inv); clear; intros; split_cases.

Lemma parseIf_loop_end fuel start ignore i prune done remove st end_ removed st' :
  parseIf_loop lines fuel start ignore i prune done remove st
  = (Return (end_, removed), st') ->
  i <= end_ < length lines.
Proof.
  revert end_ removed st'.
  by_cases (fun (fuel start : nat) (ignore : bool) i (prune done : bool)
                (remove : list nat) (st : state)
                (r : outcome (nat * list nat) * state) =>
              forall end_ removed st',
                r = (Return (end_, removed), st') ->
                i <= end_ < length lines);
    try discriminate;
    try match goal with
        | IH : forall e r s, ?x = (Return (e, r), s) -> _,
          H : ?x = (Return _, _) |- _ => apply IH in H; lia
        end.
  - match goal with H : catch _ _ _ = _ |- _ => apply catch_Return in H end.
    match goal with
    | IH : forall e r s, ?x = (Return (e, r), s) -> _,
      H : ?x = (Return _, _) |- _ => apply IH in H
    end.
    match goal with
    | IH : forall e r s, ?x = (Return (e, r), s) -> _,
      H : ?x = (Return _, _) |- _ => apply IH in H
    end.
    lia.
  - match goal with H : (Return _, _) = _ |- _ => inversion H; subst end.
    split; [lia|]. apply nth_error_Some. congruence.
Qed.

(** A frame returns at an [endif] directive. *)
Lemma parseIf_loop_returns_at_endif
      fuel start ignore i prune done remove st end_ removed st' :
  parseIf_loop lines fuel start ignore i prune done remove st
  = (Return (end_, removed), st') ->
  exists line expression column length,
    nth_error lines end_ = Some line /\
    getToken settings line = Some ("endif", expression, column, length).
Proof.
  revert end_ removed st'.
  by_cases (fun (fuel start : nat) (ignore : bool) (i : nat)
                (prune done : bool) (remove : list nat) (st : state)
                (r : outcome (nat * list nat) * state) =>
              forall end_ removed st',
                r = (Return (end_, removed), st') ->
                exists line expression column length,
                  nth_error lines end_ = Some line /\
                  getToken settings line
                  = Some ("endif", expression, column, length));
    try discriminate; eauto.
  match goal with H : (Return _, _) = _ |- _ => inversion H; subst end.
  eauto 6.
Qed.

Lemma need_after start i end_ :
  i <= end_ < length lines -> S (need lines start (S end_)) <= need lines start i.
Proof.
  unfold need. intros H.
  destruct (S end_ =? start)%nat, (i =? start)%nat; lia.
Qed.

Lemma need_nested start i : i <> start -> S (need lines i i) <= need lines start i.
Proof.
  unfold need. intros H. rewrite Nat.eqb_refl.
  destruct (Nat.eqb_spec i start); [contradiction|lia].
Qed.

Lemma parseIf_loop_not_stuck fuel start ignore i prune done remove st :
  need lines start i <= fuel ->
  fst (parseIf_loop lines fuel start ignore i prune done remove st) <> Stuck.
Proof.
  by_cases (fun fuel start (ignore : bool) i (prune done : bool)
                (remove : list nat) (st : state)
                (r : outcome (nat * list nat) * state) =>
              need lines start i <= fuel -> fst r <> Stuck);
    try (cbn [fst]; discriminate);
    try match goal with
        | Hline : nth_error lines ?i = Some _,
          IH : need lines _ (S ?i) <= _ -> ?G |- ?G =>
            apply IH;
            pose proof (need_after start i i) as Hn;
            assert (i < List.length lines) by (apply nth_error_Some; congruence);
            lia
        end.
  - unfold need in *. destruct (i =? start)%nat; lia.
  - match goal with H : catch _ _ _ = _ |- _ => apply catch_Return in H as Hr end.
    apply parseIf_loop_end in Hr.
    match goal with IH : need lines _ (S _) <= _ -> ?G |- ?G => apply IH end.
    pose proof (need_after start i n). lia.
  - match goal with H : catch _ _ _ = _ |- _ => apply catch_Stuck in H as Hr end.
    match goal with IH : need lines i i <= _ -> _ |- _ => elim IH end.
    + pose proof (need_nested start i). lia.
    + now rewrite Hr.
Qed.


(** ** Diagnostics *)

Lemma grows_refl st : grows lines st st.
Proof. exists []. cbn. now rewrite !app_nil_r. Qed.

Lemma grows_trans st1 st2 st3 : grows lines st1 st2 -> grows lines st2 st3 -> grows lines st1 st3.
Proof.
  intros (evs1 & Ht1 & Hw1) (evs2 & Ht2 & Hw2). exists (evs1 ++ evs2).
  rewrite Ht2, Ht1, Hw2, Hw1, flat_map_app, !app_assoc. auto.
Qed.

Lemma grows_note ev st : emitted lines ev = [] -> grows lines st (note ev st).
Proof.
  intros H. exists [ev]. cbn. rewrite H. cbn. now rewrite app_nil_r.
Qed.

Lemma grows_note_warn ev msg st :
  emitted lines ev = [msg] -> grows lines st (warn msg (note ev st)).
Proof. intros H. exists [ev]. cbn. rewrite H. auto. Qed.

Lemma grows_evalExpression expression line st :
  grows lines st (snd (evalExpression expression line st)).
Proof.
  unfold evalExpression.
  destruct (newFunction (body_of expression)) as [msg|fn]; cbn.
  - now apply grows_note.
  - destruct (fn _) as [[truthy|[msg| |repr]] w]; cbn;
      exists [Eval line expression]; cbn; now rewrite app_nil_r.
Qed.

Lemma grows_branch token expression i prune done st :
  grows lines st (snd (branch token expression i prune done st)).
Proof.
  unfold branch.
  destruct (token =? "else"); [apply grows_refl|].
  destruct ((token =? "elseif") || (token =? "elif")); [|apply grows_refl].
  pose proof (grows_evalExpression expression i st) as H.
  destruct (evalExpression expression i st) as [[exp|e|] st2]; exact H.
Qed.

Lemma is_warning_branch token expression i prune done st :
  is_warning token = true ->
  branch token expression i prune done st = (Return (prune, done), st).
Proof.
  unfold is_warning.
  intros [H|H]%orb_true_iff; apply String.eqb_eq in H; subst; reflexivity.
Qed.

Lemma snd_catch {A} start (r : outcome A * state) :
  snd (catch lines start r) = snd r.
Proof. now destruct r as [[a|e|] st]. Qed.

Lemma emitted_plain start i ignore prune done line :
  nth_error lines i = Some line ->
  getToken settings line = None ->
  emitted lines (Scan start i ignore prune done) = [].
Proof. intros Hl Ht. cbn. now rewrite Hl, Ht. Qed.

Lemma emitted_directive start i ignore prune done line token expression
      column length :
  nth_error lines i = Some line ->
  getToken settings line = Some (token, expression, column, length) ->
  emitted lines (Scan start i ignore prune done)
  = if is_warning token && negb prune && negb ignore
    then [diagnostic i line expression column length]
    else [].
Proof. intros Hl Ht. cbn. now rewrite Hl, Ht. Qed.

Lemma grows_scan_branch start i prune done st line token expression
      column length o st2 :
  nth_error lines i = Some line ->
  getToken settings line = Some (token, expression, column, length) ->
  branch token expression i prune done (note (Scan start i false prune done) st)
  = (o, st2) ->
  match o with
  | Return (false, _) =>
      if is_warning token
      then grows lines st (warn (diagnostic i line expression column length) st2)
      else grows lines st st2
  | _ => grows lines st st2
  end.
Proof.
  intros Hl Ht Hb.
  pose proof (emitted_directive start i false prune done _ _ _ _ _ Hl Ht) as He.
  destruct (is_warning token) eqn:Hw.
  - rewrite is_warning_branch in Hb by assumption.
    inversion Hb; subst. destruct prune; cbn [andb negb] in He.
    + now apply grows_note.
    + now apply grows_note_warn.
  - cbn [andb negb] in He.
    pose proof (grows_branch token expression i prune done
                  (note (Scan start i false prune done) st)) as H.
    rewrite Hb in H. cbn [snd] in H.
    apply grows_trans with (1 := grows_note _ st He) in H.
    destruct o as [[[|] ?]| |]; exact H.
Qed.

Lemma grows_scan_quiet start i ignore prune done st line token expression
      column length :
  nth_error lines i = Some line ->
  getToken settings line = Some (token, expression, column, length) ->
  is_warning token && negb prune && negb ignore = false ->
  grows lines st (note (Scan start i ignore prune done) st).
Proof.
  intros Hl Ht Hq. apply grows_note.
  rewrite (emitted_directive _ _ _ _ _ _ _ _ _ _ Hl Ht). now rewrite Hq.
Qed.

Lemma grows_catch {A} start st (r : outcome A * state) :
  grows lines st (snd r) -> grows lines st (snd (catch lines start r)).
Proof. now rewrite snd_catch. Qed.

Ltac scan_quiet start ignore prune done :=
  match goal with
  | Hl : nth_error lines ?i = Some _ |- grows _ ?st _ =>
      apply grows_trans with (st2 := note (Scan start i ignore prune done) st);
      [ eapply grows_scan_quiet; [eassumption|eassumption|];
        first [ reflexivity
              | match goal with
                | H : _ || _ && _ = true |- _ =>
                    destruct ignore, prune; cbn in *; try discriminate;
                    now rewrite ?andb_false_r
                end ]
      | ]
  end.

Lemma parseIf_loop_grows fuel start ignore i prune done remove st :
  grows lines st (snd (parseIf_loop lines fuel start ignore i prune done remove st)).
Proof.
  by_cases (fun (fuel start : nat) (ignore : bool) (i : nat)
                (prune done : bool) (remove : list nat) (st : state)
                (r : outcome (nat * list nat) * state) =>
              grows lines st (snd r));
    try apply grows_refl;
    try match goal with
        | Hb : branch _ _ _ _ _ _ = _ |- _ =>
            eapply grows_scan_branch in Hb; [|eassumption..]; cbn in Hb;
            try match goal with Hw : is_warning _ = _ |- _ =>
                  rewrite Hw in Hb end;
            solve [exact Hb | eapply grows_trans; eassumption]
        end;
    try match goal with
        | Hc : catch _ _ ?r1 = _, IH : grows lines _ (snd ?r1) |- _ =>
            apply (grows_catch i) in IH; rewrite Hc in IH; cbn [snd] in IH
        end;
    try match goal with
        | He : evalExpression ?e ?l ?s = _ |- _ =>
            pose proof (grows_evalExpression e l s) as Hev;
            rewrite He in Hev; cbn [snd] in Hev
        end;
    cbn [snd].
  - eapply grows_trans; [|eassumption].
    apply grows_note. eapply emitted_plain; eassumption.
  - scan_quiet start ignore prune done. eapply grows_trans; eassumption.
  - scan_quiet start ignore prune done. eassumption.
  - scan_quiet start ignore prune done. eassumption.
  - scan_quiet start ignore prune done. eapply grows_trans; eassumption.
  - scan_quiet start ignore prune done. eassumption.
  - scan_quiet start ignore prune done. apply grows_refl.
  - scan_quiet start ignore prune done. eassumption.
Qed.


(** ** Which events a step adds to the trace *)

Lemma in_trace_note ev x st :
  In ev (trace (note x st)) -> In ev (trace st) \/ ev = x.
Proof.
  cbn. intros [H|[H|[]]]%in_app_or; auto.
Qed.

Lemma scan_in_evalExpression start i ignore prune done expression line st :
  In (Scan start i ignore prune done)
     (trace (snd (evalExpression expression line st))) ->
  In (Scan start i ignore prune done) (trace st).
Proof.
  unfold evalExpression.
  destruct (newFunction (body_of expression)) as [msg|fn]; cbn [snd].
  - intros [H|H]%in_trace_note; [exact H|discriminate].
  - destruct (fn _) as [[truthy|[msg| |repr]] w]; cbn;
      intros [H|[H|[]]]%in_app_or; auto; discriminate.
Qed.

Lemma scan_in_branch start i ignore prune done token expression j p d st :
  In (Scan start i ignore prune done)
     (trace (snd (branch token expression j p d st))) ->
  In (Scan start i ignore prune done) (trace st).
Proof.
  unfold branch.
  destruct (token =? "else"); [auto|].
  destruct ((token =? "elseif") || (token =? "elif")); [|auto].
  pose proof (scan_in_evalExpression start i ignore prune done expression j st)
    as H.
  destruct (evalExpression expression j st) as [[exp|e|] st2]; exact H.
Qed.

(** ** An [error] directive in an active branch *)

Lemma is_error_branch token expression i prune done st :
  is_error token = true ->
  branch token expression i prune done st = (Return (prune, done), st) /\
  is_warning token = false.
Proof.
  unfold is_error.
  intros [H|H]%orb_true_iff; apply String.eqb_eq in H; subst; split;
    reflexivity.
Qed.

Lemma locate_directive start msg j loc line token expression column length :
  nth_error lines j = Some line ->
  getToken settings line = Some (token, expression, column, length) ->
  locate lines start (mkError msg (Some j) loc)
  = mkError msg (Some j)
            (Some (mkLocation None (j + 1) line (Some column) (Some length))).
Proof.
  intros Hl Ht. unfold locate. cbn. now rewrite Hl, Ht.
Qed.

Lemma scan_after_evalExpression ev expression line st o st2 :
  evalExpression expression line st = (o, st2) ->
  (exists start i ignore prune done, ev = Scan start i ignore prune done) ->
  In ev (trace st2) -> In ev (trace st).
Proof.
  intros He (start & i & ignore & prune & done & ->) Hin.
  apply scan_in_evalExpression with (expression := expression) (line := line).
  now rewrite He.
Qed.

Lemma scan_after_branch ev token expression j p d st o st2 :
  branch token expression j p d st = (o, st2) ->
  (exists start i ignore prune done, ev = Scan start i ignore prune done) ->
  In ev (trace st2) -> In ev (trace st).
Proof.
  intros Hb (start & i & ignore & prune & done & ->) Hin.
  apply scan_in_branch with (token := token) (expression := expression)
                            (j := j) (p := p) (d := d).
  now rewrite Hb.
Qed.

Lemma catch_Throw {A} start (r : outcome A * state) e st :
  catch lines start r = (Throw e, st) ->
  exists e1, r = (Throw e1, st) /\ e = locate lines start e1.
Proof.
  destruct r as [[a'|e1|] st']; cbn; try congruence.
  intros H. inversion H; subst. eauto.
Qed.

Ltac same_line :=
  repeat match goal with
         | H1 : nth_error lines ?i = Some ?l1,
           H2 : nth_error lines ?i = Some ?l2 |- _ =>
             assert (l1 = l2) by congruence; subst l2; clear H2
         | H1 : getToken settings ?l = Some _,
           H2 : getToken settings ?l = Some _ |- _ =>
             rewrite H1 in H2; inversion H2; subst; clear H2
         | H1 : getToken settings ?l = None,
           H2 : getToken settings ?l = Some _ |- _ => congruence
         end.

Ltac back_to_scan :=
  repeat match goal with
         | H : In _ (trace (warn _ _)) |- _ => cbn [warn trace] in H
         | Hb : branch _ _ _ _ _ _ = (_, ?s), H : In _ (trace ?s) |- _ =>
             apply (scan_after_branch _ _ _ _ _ _ _ _ _ Hb) in H;
             [|now repeat eexists]
         | He : evalExpression _ _ _ = (_, ?s), H : In _ (trace ?s) |- _ =>
             apply (scan_after_evalExpression _ _ _ _ _ _ He) in H;
             [|now repeat eexists]
         end.

Lemma parseIf_loop_raises fuel start ignore i prune done remove st :
  raises_at lines st (parseIf_loop lines fuel start ignore i prune done remove st).
Proof.
  by_cases (fun (fuel start : nat) (ignore : bool) (i : nat)
                (prune done : bool) (remove : list nat) (st : state)
                (r : outcome (nat * list nat) * state) =>
              raises_at lines st r);
    intros s' j dn line' token' expression' column' length' Hin Hl Ht He;
    try match goal with
        | IH : raises_at _ ?st2 ?r, Hin : In _ (trace (snd ?r)) |- _ =>
            destruct (IH _ _ _ _ _ _ _ _ Hin Hl Ht He) as [Hin2|Hthrow];
            [clear Hin | right; exact Hthrow]
        end;
    cbn [snd fst] in *;
    back_to_scan;
    try (now left);
    try match goal with
        | H : In _ (trace (note _ _)) |- _ =>
            apply in_trace_note in H as [H|H];
            [now left | inversion H; subst; clear H; same_line]
        end;
    try discriminate;
    try match goal with
        | Hb : branch _ _ _ _ _ _ = _ |- _ =>
            destruct (is_error_branch _ expression' i false done
                        (note (Scan start i false false done) st) He)
              as [Hb' Hw];
            rewrite Hb' in Hb; inversion Hb; subst;
            solve [ congruence | right; eexists; reflexivity ]
        end.
  - apply catch_Return in Heqp. rewrite Heqp in H2.
    destruct (H2 _ _ _ _ _ _ _ _ Hin2 Hl Ht He) as [Hin|[loc Hth]];
      [|discriminate].
    apply in_trace_note in Hin as [Hin|Hin]; [now left|].
    inversion Hin; subst. same_line. discriminate.
  - apply catch_Throw in Heqp as (e1 & Hr1 & ->). rewrite Hr1 in H2.
    destruct (H2 _ _ _ _ _ _ _ _ Hin Hl Ht He) as [Hin'|[loc Hth]].
    + apply in_trace_note in Hin' as [Hin'|Hin']; [now left|].
      inversion Hin'; subst. same_line. discriminate.
    + right. cbn in Hth. inversion Hth; subst.
      rewrite (locate_directive _ _ _ _ _ _ _ _ _ Hl Ht). eauto.
  - apply catch_Stuck in Heqp. rewrite Heqp in H2.
    destruct (H2 _ _ _ _ _ _ _ _ Hin Hl Ht He) as [Hin'|[loc Hth]];
      [|discriminate].
    apply in_trace_note in Hin' as [Hin'|Hin']; [now left|].
    inversion Hin'; subst. same_line. discriminate.
Qed.

(** ** Directive lines that the block parser scans are suppressed *)

Lemma incl_push_if b remove i : incl remove (push_if b remove i).
Proof. destruct b; cbn; [apply incl_appl|]; apply incl_refl. Qed.

Lemma incl_pushed b remove i : incl remove (push_if b remove i ++ [i]).
Proof. apply incl_appl, incl_push_if. Qed.

Lemma in_pushed b remove i : In i (push_if b remove i ++ [i]).
Proof. apply in_or_app. right. now left. Qed.

Lemma parseIf_loop_suppresses fuel start ignore i prune done remove st :
  suppresses_at lines remove st
    (parseIf_loop lines fuel start ignore i prune done remove st).
Proof.
  by_cases (fun (fuel start : nat) (ignore : bool) (i : nat)
                (prune done : bool) (remove : list nat) (st : state)
                (r : outcome (nat * list nat) * state) =>
              suppresses_at lines remove st r);
    intros end' removed' Hret;
    try discriminate;
    try match goal with
        | IH : suppresses_at _ ?rm ?st2 ?r, Hret : fst ?r = _ |- _ =>
            destruct (IH _ _ Hret) as [Hincl Hev]; clear IH
        end;
    (split;
     [ try (eapply incl_tran; [|eassumption]);
       try (eapply incl_tran; [|apply incl_appl; apply incl_refl]);
       first [apply incl_pushed | apply incl_push_if | idtac]
     | intros s' j ig pr dn line' td Hin Hl Ht;
       try match goal with
           | Hev : forall s j ig pr dn line td, In _ (trace (snd ?r)) -> _
             |- _ =>
               destruct (Hev _ _ _ _ _ _ _ Hin Hl Ht) as [Hin2|Hrm];
               [clear Hin | now right]
           end;
       cbn [snd fst] in *; back_to_scan ]);
    try match goal with
        | H : In _ (trace (note _ _)) |- _ =>
            apply in_trace_note in H as [H|H];
            [now left | inversion H; subst; clear H; same_line; right]
        end;
    try solve [ apply Hincl; first [apply in_pushed
                                   | apply in_or_app; left; apply in_pushed] ].
  - apply catch_Return in Heqp. rewrite Heqp in H2.
    destruct (H2 _ _ eq_refl) as [_ Hev1]. cbn [snd] in Hev1.
    destruct (Hev1 _ _ _ _ _ _ _ Hin2 Hl Ht) as [Hin|Hin].
    + apply in_trace_note in Hin as [Hin|Hin]; [now left|].
      inversion Hin; subst. right.
      apply Hincl, in_or_app. left. apply in_pushed.
    + right. apply Hincl, in_or_app. now right.
  - inversion Hret; subst. apply incl_pushed.
  - inversion Hret; subst. apply in_pushed.
Qed.

(** ** Only scanned lines are suppressed *)

Lemma prefix_refl st : prefix st st.
Proof. exists []. now rewrite app_nil_r. Qed.

Lemma prefix_trans st1 st2 st3 : prefix st1 st2 -> prefix st2 st3 -> prefix st1 st3.
Proof.
  intros (evs1 & H1) (evs2 & H2). exists (evs1 ++ evs2).
  now rewrite H2, H1, app_assoc.
Qed.

Lemma prefix_grows st st' : grows lines st st' -> prefix st st'.
Proof. intros (evs & H & _). now exists evs. Qed.

Lemma prefix_warn msg st : prefix st (warn msg st).
Proof. exists []. cbn. now rewrite app_nil_r. Qed.

Lemma prefix_loop fuel start ignore i prune done remove st o st' :
  parseIf_loop lines fuel start ignore i prune done remove st = (o, st') ->
  prefix st st'.
Proof.
  intros H. apply prefix_grows.
  pose proof (parseIf_loop_grows fuel start ignore i prune done remove st) as Hg.
  now rewrite H in Hg.
Qed.

Lemma prefix_catch_loop k fuel start ignore i prune done remove st o st' :
  catch lines k (parseIf_loop lines fuel start ignore i prune done remove st)
  = (o, st') ->
  prefix st st'.
Proof.
  intros H. apply prefix_grows.
  pose proof (parseIf_loop_grows fuel start ignore i prune done remove st) as Hg.
  apply (grows_catch k) in Hg. now rewrite H in Hg.
Qed.

Lemma prefix_evalExpression expression line st o st' :
  evalExpression expression line st = (o, st') -> prefix st st'.
Proof.
  intros H. apply prefix_grows.
  pose proof (grows_evalExpression expression line st) as Hg.
  now rewrite H in Hg.
Qed.

Lemma prefix_branch token expression i prune done st o st' :
  branch token expression i prune done st = (o, st') -> prefix st st'.
Proof.
  intros H. apply prefix_grows.
  pose proof (grows_branch token expression i prune done st) as Hg.
  now rewrite H in Hg.
Qed.

Lemma scanned_prefix st st' j : prefix st st' -> scanned st j -> scanned st' j.
Proof.
  intros (evs & Ht) (s & ig & pr & dn & H). exists s, ig, pr, dn.
  rewrite Ht. apply in_or_app. now left.
Qed.

Lemma scanned_now start i ignore prune done st :
  scanned (note (Scan start i ignore prune done) st) i.
Proof.
  exists start, ignore, prune, done. cbn. apply in_or_app. right. now left.
Qed.

Lemma in_pushed_inv b remove i j :
  In j (push_if b remove i ++ [i]) -> In j remove \/ j = i.
Proof.
  intros [H|[H|[]]]%in_app_or; [|now right].
  destruct b; cbn in H; [|now left].
  apply in_app_or in H as [H|[H|[]]]; auto.
Qed.

Lemma in_push_if_inv b remove i j :
  In j (push_if b remove i) -> In j remove \/ j = i.
Proof.
  destruct b; cbn; [|now left].
  intros [H|[H|[]]]%in_app_or; auto.
Qed.

Lemma parseIf_loop_removed fuel start ignore i prune done remove st end_ removed st' :
  parseIf_loop lines fuel start ignore i prune done remove st
  = (Return (end_, removed), st') ->
  forall j, In j removed -> In j remove \/ scanned st' j.
Proof.
  revert end_ removed st'.
  by_cases (fun (fuel start : nat) (ignore : bool) (i : nat)
                (prune done : bool) (remove : list nat) (st : state)
                (r : outcome (nat * list nat) * state) =>
              forall end_ removed st',
                r = (Return (end_, removed), st') ->
                forall j, In j removed -> In j remove \/ scanned st' j);
    try discriminate;
    try match goal with
        | IH : forall e r s, ?x = (Return (e, r), s) -> _,
          Hr : ?x = (Return _, _), Hj : In _ _ |- _ =>
            destruct (IH _ _ _ Hr _ Hj) as [Hj'|Hj']; [clear IH|now right];
            apply prefix_loop in Hr
        end;
    try match goal with
        | Hj : In _ (_ ++ ?l), Hc : catch _ _ _ = (Return (_, ?l), _) |- _ =>
            apply in_app_or in Hj as [Hj|Hj]
        end;
    try match goal with
        | Hj : In _ (push_if _ _ _ ++ [_]) |- _ =>
            apply in_pushed_inv in Hj as [Hj| ->]; [now left|right]
        | Hj : In _ (push_if _ _ _) |- _ =>
            apply in_push_if_inv in Hj as [Hj| ->]; [now left|right]
        end;
    try match goal with
        | Hb : branch _ _ _ _ _ _ = _ |- _ => apply prefix_branch in Hb
        end;
    try match goal with
        | Hb : evalExpression _ _ _ = _ |- _ => apply prefix_evalExpression in Hb
        end;
    try match goal with
        | Hb : catch _ _ (parseIf_loop _ _ _ _ _ _ _ _ _) = _ |- _ =>
            apply prefix_catch_loop in Hb as Hpre
        end;
    try solve [ eapply scanned_prefix; [|apply scanned_now];
                eauto using prefix_trans, prefix_warn, prefix_refl ].
  - apply catch_Return in Heqp.
    destruct (H2 _ _ _ Heqp _ Hj') as [[]|Hs]. right.
    now apply scanned_prefix with (1 := H4).
  - match goal with H : (Return _, _) = _ |- _ => inversion H; subst end.
    match goal with H : In _ _ |- _ =>
      apply in_pushed_inv in H as [H| ->]; [now left|right] end.
    apply scanned_now.
Qed.

(** ** One iteration at a directive *)

Ltac decide_tokens :=
  repeat match goal with
         | |- context [String.eqb ?a ?b] =>
             let v := eval vm_compute in (String.eqb a b) in
             change (String.eqb a b) with v
         end;
  cbv beta iota; cbn [orb andb negb].


(** A [warning] or [warn] directive: a diagnostic when the frame is
    neither pruning nor ignored, and in every case the scan goes on at the
    next line with [prune] and [done] as they were. *)
Lemma warning_step fuel start ignore i prune done remove st line token
      expression column length :
  nth_error lines i = Some line ->
  getToken settings line = Some (token, expression, column, length) ->
  token = "warning" \/ token = "warn" ->
  parseIf_loop lines (S fuel) start ignore i prune done remove st
  = let st1 := note (Scan start i ignore prune done) st in
    parseIf_loop lines fuel start ignore (S i) prune done
      (push_if (prune || ignore) remove i ++ [i])
      (if negb prune && negb ignore
       then warn (diagnostic i line expression column length) st1
       else st1).
Proof.
  intros Hl Ht Htok. cbn [parseIf_loop]. rewrite Hl, Ht. cbv zeta.
  fold (push_if (prune || ignore) remove i).
  destruct Htok as [-> | ->]; unfold branch; decide_tokens;
    destruct ignore, prune, done; reflexivity.
Qed.

(** An [error] or [err] directive: thrown when the frame is neither
    pruning nor ignored; otherwise the scan goes on at the next line. *)
Lemma error_step fuel start ignore i prune done remove st line token
      expression column length :
  nth_error lines i = Some line ->
  getToken settings line = Some (token, expression, column, length) ->
  token = "error" \/ token = "err" ->
  parseIf_loop lines (S fuel) start ignore i prune done remove st
  = let st1 := note (Scan start i ignore prune done) st in
    if negb prune && negb ignore
    then (Throw (mkError expression (Some i) None), st1)
    else parseIf_loop lines fuel start ignore (S i) prune done
           (push_if (prune || ignore) remove i ++ [i]) st1.
Proof.
  intros Hl Ht Htok. cbn [parseIf_loop]. rewrite Hl, Ht. cbv zeta.
  fold (push_if (prune || ignore) remove i).
  destruct Htok as [-> | ->]; unfold branch; decide_tokens;
    destruct ignore, prune, done; reflexivity.
Qed.

(** A line that is no directive. *)
Lemma plain_step fuel start ignore i prune done remove st line :
  nth_error lines i = Some line ->
  getToken settings line = None ->
  parseIf_loop lines (S fuel) start ignore i prune done remove st
  = parseIf_loop lines fuel start ignore (S i) prune done
      (push_if (prune || ignore) remove i)
      (note (Scan start i ignore prune done) st).
Proof.
  intros Hl Ht. cbn [parseIf_loop]. now rewrite Hl, Ht.
Qed.

(** The opening [if] of a frame: its expression is evaluated whatever
    [ignore] is. *)
Lemma opening_step fuel start ignore prune done remove st line
      expression column length :
  nth_error lines start = Some line ->
  getToken settings line = Some ("if", expression, column, length) ->
  parseIf_loop lines (S fuel) start ignore start prune done remove st
  = match evalExpression expression start
                         (note (Scan start start ignore prune done) st) with
    | (Return exp, st2) =>
        parseIf_loop lines fuel start ignore (S start) (negb exp) exp
          (push_if (prune || ignore) remove start ++ [start]) st2
    | (Throw e, st2) => (Throw e, st2)
    | (Stuck, st2) => (Stuck, st2)
    end.
Proof.
  intros Hl Ht. cbn [parseIf_loop]. rewrite Hl, Ht. cbv zeta.
  decide_tokens. now rewrite Nat.eqb_refl.
Qed.

(** An [else] directive of a frame that is not ignored: from the next line
    on the frame is pruning exactly when a branch has matched before, and
    [done] is as it was. *)
Lemma else_step fuel start i prune done remove st line expression column length :
  nth_error lines i = Some line ->
  getToken settings line = Some ("else", expression, column, length) ->
  parseIf_loop lines (S fuel) start false i prune done remove st
  = parseIf_loop lines fuel start false (S i) done done
      (push_if (prune || false) remove i ++ [i])
      (note (Scan start i false prune done) st).
Proof.
  intros Hl Ht. cbn [parseIf_loop]. rewrite Hl, Ht. cbv zeta.
  fold (push_if (prune || false) remove i).
  unfold branch; decide_tokens.
  destruct prune, done; reflexivity.
Qed.

(** ** An ignored frame *)

(** Whatever [ignore] is, a frame evaluates the expression of its opening
    [if] ([opening_step]); when it returns, an ignored frame has suppressed
    every line from the index it was scanning to its [endif]. *)
Lemma ignored_loop_suppresses_all
      fuel start ignore i prune done remove st end_ removed st' :
  parseIf_loop lines fuel start ignore i prune done remove st
  = (Return (end_, removed), st') ->
  ignore = true ->
  forall j, i <= j <= end_ -> In j removed.
Proof.
  revert end_ removed st'.
  by_cases (fun (fuel start : nat) (ignore : bool) (i : nat)
                (prune done : bool) (remove : list nat) (st : state)
                (r : outcome (nat * list nat) * state) =>
              forall end_ removed st',
                r = (Return (end_, removed), st') ->
                ignore = true ->
                forall j, i <= j <= end_ -> In j removed);
    try discriminate; subst;
    try match goal with
        | Hr : parseIf_loop lines ?f ?s ?ig ?k ?p ?d ?rm ?st0 = (Return _, _)
          |- _ =>
            pose proof (parseIf_loop_suppresses f s ig k p d rm st0) as Hs;
            rewrite Hr in Hs; destruct (Hs _ _ eq_refl) as [Hincl _];
            clear Hs
        end;
    rewrite ?orb_true_r in *; cbn [push_if] in *;
    try match goal with
        | Hc : catch _ _ _ = (Return _, _) |- _ =>
            apply catch_Return in Hc;
            pose proof (parseIf_loop_end _ _ _ _ _ _ _ _ _ _ _ Hc)
        end;
    try match goal with
        | H : (Return _, _) = _ |- _ => inversion H; subst
        end;
    match goal with
    | Hj : ?i <= ?j <= _ |- In ?j _ =>
        destruct (Nat.eq_dec j i) as [->|Hne];
        [ (* the line scanned now *)
          first [ apply in_or_app; right; now left
                | apply Hincl, in_or_app; right; now left
                | apply Hincl, in_or_app; left;
                  apply in_or_app; right; now left ]
        | try match goal with
              | Hn : i <= ?n < _ |- _ => destruct (le_gt_dec j n)
              end;
          first
            [ (* a later line of this frame *)
              match goal with
              | IH : forall e r s, _ = (Return (e, r), s) -> _ |- _ =>
                  solve [eapply IH; [eassumption | reflexivity | lia]]
              end
            | (* a line of the nested frame *)
              match goal with
              | IH : forall e r s, _ = (Return (e, r), s) -> _ |- _ =>
                  solve [apply Hincl, in_or_app; right;
                         eapply IH; [eassumption | reflexivity | lia]]
              end
            | lia ] ]
    end.
Qed.

(** ** A whole frame: [parseIf] *)

Lemma parseIf_end start ignore st end_ removed st' :
  parseIf lines start ignore st = (Return (end_, removed), st') ->
  start <= end_ < length lines.
Proof.
  unfold parseIf, parseIf_fuel. intros H%catch_Return.
  now apply parseIf_loop_end in H.
Qed.

Lemma parseIf_not_stuck start ignore st :
  fst (parseIf lines start ignore st) <> Stuck.
Proof.
  unfold parseIf, parseIf_fuel.
  pose proof (parseIf_loop_not_stuck (enough lines) start ignore start
                false false [] st) as H.
  destruct (parseIf_loop _ _ _ _ _ _ _ _ _) as [[a|e|] st'];
    cbn in *; try discriminate.
  apply H. unfold need, enough. rewrite Nat.eqb_refl. lia.
Qed.

Lemma parseIf_grows start ignore st :
  grows lines st (snd (parseIf lines start ignore st)).
Proof.
  unfold parseIf, parseIf_fuel. rewrite snd_catch. apply parseIf_loop_grows.
Qed.

Lemma parseIf_raises start ignore st s j dn line token expression column length :
  In (Scan s j false false dn) (trace (snd (parseIf lines start ignore st))) ->
  nth_error lines j = Some line ->
  getToken settings line = Some (token, expression, column, length) ->
  is_error token = true ->
  In (Scan s j false false dn) (trace st) \/
  fst (parseIf lines start ignore st)
  = Throw (mkError expression (Some j)
             (Some (mkLocation None (j + 1) line (Some column) (Some length)))).
Proof.
  unfold parseIf, parseIf_fuel. rewrite snd_catch. intros Hin Hl Ht He.
  destruct (parseIf_loop_raises _ _ _ _ _ _ _ _ _ _ _ _ _ _ _ _ Hin Hl Ht He)
    as [H|[loc H]]; [now left|right].
  destruct (parseIf_loop _ _ _ _ _ _ _ _ _) as [[a|e|] st']; cbn in *;
    try discriminate.
  inversion H; subst. now rewrite (locate_directive _ _ _ _ _ _ _ _ _ Hl Ht).
Qed.

Lemma parseIf_suppresses start ignore st end_ removed st' s j ig pr dn line td :
  parseIf lines start ignore st = (Return (end_, removed), st') ->
  In (Scan s j ig pr dn) (trace st') ->
  nth_error lines j = Some line ->
  getToken settings line = Some td ->
  In (Scan s j ig pr dn) (trace st) \/ In j removed.
Proof.
  unfold parseIf, parseIf_fuel. intros H%catch_Return Hin Hl Ht.
  pose proof (parseIf_loop_suppresses (enough lines) start ignore start
                false false [] st) as Hs.
  rewrite H in Hs. destruct (Hs _ _ eq_refl) as [_ Hev]. eauto.
Qed.

(** ** The top-level scan of [format] *)

Lemma format_loop_not_stuck fuel i remove st :
  length lines - i < fuel ->
  fst (format_loop lines fuel i remove st) <> Stuck.
Proof.
  revert i remove st. induction fuel as [|fuel IH]; intros i remove st Hf;
    [lia|].
  cbn [format_loop].
  destruct (nth_error lines i) as [line|] eqn:Hl; [|cbn; discriminate].
  assert (i < length lines) by (apply nth_error_Some; congruence).
  destruct (getToken settings line) as [[[[token ?] ?] ?]|];
    [|apply IH; lia].
  destruct (token =? "if"); [|apply IH; lia].
  pose proof (parseIf_not_stuck i false st) as Hns.
  destruct (parseIf lines i false st) as [[[end_ removed]|e|] st'] eqn:Hp;
    cbn in *; try discriminate; [|congruence].
  apply parseIf_end in Hp. apply IH. lia.
Qed.

Lemma format_loop_grows fuel i remove st :
  grows lines st (snd (format_loop lines fuel i remove st)).
Proof.
  revert i remove st. induction fuel as [|fuel IH]; intros i remove st;
    [apply grows_refl|].
  cbn [format_loop].
  destruct (nth_error lines i) as [line|]; [|apply grows_refl].
  destruct (getToken settings line) as [[[[token ?] ?] ?]|]; [|apply IH].
  destruct (token =? "if"); [|apply IH].
  pose proof (parseIf_grows i false st) as Hg.
  destruct (parseIf lines i false st) as [[[end_ removed]|e|] st'];
    cbn [snd] in *; try exact Hg.
  eapply grows_trans; [exact Hg|apply IH].
Qed.

Lemma format_loop_raises fuel i remove st s j dn line token expression
      column length :
  In (Scan s j false false dn) (trace (snd (format_loop lines fuel i remove st))) ->
  nth_error lines j = Some line ->
  getToken settings line = Some (token, expression, column, length) ->
  is_error token = true ->
  In (Scan s j false false dn) (trace st) \/
  fst (format_loop lines fuel i remove st)
  = Throw (mkError expression (Some j)
             (Some (mkLocation None (j + 1) line (Some column) (Some length)))).
Proof.
  revert i remove st. induction fuel as [|fuel IH]; intros i remove st;
    [now left|].
  cbn [format_loop].
  destruct (nth_error lines i) as [line0|]; [|now left].
  destruct (getToken settings line0) as [[[[token0 ?] ?] ?]|]; [|apply IH].
  destruct (token0 =? "if"); [|apply IH].
  pose proof (parseIf_raises i false st s j dn line token expression
                column length) as Hp.
  destruct (parseIf lines i false st) as [[[end_ removed]|e|] st'];
    cbn [snd fst] in *; intros Hin Hl Ht He.
  - destruct (IH _ _ _ Hin Hl Ht He) as [H|H]; [|now right].
    destruct (Hp H Hl Ht He) as [H'|H']; [now left|discriminate].
  - destruct (Hp Hin Hl Ht He) as [H'|H']; [now left|right].
    now inversion H'.
  - destruct (Hp Hin Hl Ht He) as [H'|H']; [now left|discriminate].
Qed.

Lemma format_loop_suppresses fuel i remove st removed st' :
  format_loop lines fuel i remove st = (Return removed, st') ->
  incl remove removed /\
  forall s j ig pr dn line td,
    In (Scan s j ig pr dn) (trace st') ->
    nth_error lines j = Some line ->
    getToken settings line = Some td ->
    In (Scan s j ig pr dn) (trace st) \/ In j removed.
Proof.
  revert i remove st. induction fuel as [|fuel IH]; intros i remove st;
    [discriminate|].
  cbn [format_loop].
  destruct (nth_error lines i) as [line0|].
  2:{ intros H. inversion H; subst. split; [apply incl_refl|auto]. }
  destruct (getToken settings line0) as [[[[token0 e0] c0] l0]|]; [|apply IH].
  destruct (token0 =? "if"); [|apply IH].
  destruct (parseIf lines i false st) as [[[end_ removed0]|e|] st0] eqn:Hp;
    try discriminate.
  intros H. apply IH in H as [Hincl Hev]. split.
  - eapply incl_tran; [apply incl_appl, incl_refl|exact Hincl].
  - intros s j ig pr dn line td Hin Hl Ht.
    destruct (Hev _ _ _ _ _ _ _ Hin Hl Ht) as [H|H]; [|now right].
    destruct (parseIf_suppresses _ _ _ _ _ _ _ _ _ _ _ _ _ Hp H Hl Ht)
      as [H'|H']; [now left|right].
    apply Hincl, in_or_app. now right.
Qed.

Lemma parseIf_removed start ignore st end_ removed st' j :
  parseIf lines start ignore st = (Return (end_, removed), st') ->
  In j removed -> scanned st' j.
Proof.
  unfold parseIf, parseIf_fuel. intros H%catch_Return Hj.
  destruct (parseIf_loop_removed _ _ _ _ _ _ _ _ _ _ _ H _ Hj) as [[]|Hs].
  exact Hs.
Qed.

Lemma prefix_format_loop fuel i remove st :
  prefix st (snd (format_loop lines fuel i remove st)).
Proof. apply prefix_grows, format_loop_grows. Qed.

Lemma format_loop_removed fuel i remove st removed st' j :
  format_loop lines fuel i remove st = (Return removed, st') ->
  In j removed -> In j remove \/ scanned st' j.
Proof.
  revert i remove st. induction fuel as [|fuel IH]; intros i remove st;
    [discriminate|].
  cbn [format_loop].
  destruct (nth_error lines i) as [line0|].
  2:{ intros H. inversion H; subst. now left. }
  destruct (getToken settings line0) as [[[[token0 e0] c0] l0]|]; [|apply IH].
  destruct (token0 =? "if"); [|apply IH].
  destruct (parseIf lines i false st) as [[[end_ removed0]|e|] st0] eqn:Hp;
    try discriminate.
  intros H Hj.
  destruct (IH _ _ _ H Hj) as [[Hj'|Hj']%in_app_or|Hj'];
    [now left| |now right].
  right. apply (parseIf_removed _ _ _ _ _ _ _ Hp) in Hj'.
  eapply scanned_prefix; [|exact Hj'].
  pose proof (prefix_format_loop fuel (S end_) (remove ++ removed0) st0) as Hpre.
  now rewrite H in Hpre.
Qed.

Lemma ignored_frame_suppresses_block start st end_ removed st' :
  parseIf lines start true st = (Return (end_, removed), st') ->
  forall j, start <= j <= end_ -> In j removed.
Proof.
  unfold parseIf, parseIf_fuel. intros H%catch_Return.
  now apply ignored_loop_suppresses_all with (1 := H).
Qed.

(** ** Lines that are no directives *)

(** What a frame adds to the suppression list lies between the index it
    was scanning and its [endif]. *)
Lemma parseIf_loop_removed_range
      fuel start ignore i prune done remove st end_ removed st' :
  parseIf_loop lines fuel start ignore i prune done remove st
  = (Return (end_, removed), st') ->
  forall j, In j removed -> In j remove \/ i <= j <= end_.
Proof.
  revert end_ removed st'.
  by_cases (fun (fuel start : nat) (ignore : bool) (i : nat)
                (prune done : bool) (remove : list nat) (st : state)
                (r : outcome (nat * list nat) * state) =>
              forall end_ removed st',
                r = (Return (end_, removed), st') ->
                forall j, In j removed -> In j remove \/ i <= j <= end_);
    try discriminate;
    try match goal with
        | Hc : catch _ _ _ = (Return _, _) |- _ =>
            apply catch_Return in Hc;
            pose proof (parseIf_loop_end _ _ _ _ _ _ _ _ _ _ _ Hc)
        end;
    try match goal with
        | IH : forall e r s, ?x = (Return (e, r), s) -> _,
          Hr : ?x = (Return _, _), Hj : In _ _ |- _ =>
            pose proof (parseIf_loop_end _ _ _ _ _ _ _ _ _ _ _ Hr);
            destruct (IH _ _ _ Hr _ Hj) as [Hj'|Hj']; [clear IH|right; lia]
        end;
    try match goal with
        | H : (Return _, _) = _ |- _ => inversion H; subst
        end;
    try match goal with
        | Hj : In _ (_ ++ ?l), Hc : parseIf_loop _ _ _ _ _ _ _ _ _
                                    = (Return (_, ?l), _) |- _ =>
            apply in_app_or in Hj as [Hj|Hj]
        end;
    try match goal with
        | Hj : In _ (push_if _ _ _ ++ [_]) |- _ =>
            apply in_pushed_inv in Hj as [Hj| ->]; [now left|right; lia]
        | Hj : In _ (push_if _ _ _) |- _ =>
            apply in_push_if_inv in Hj as [Hj| ->]; [now left|right; lia]
        end.
  destruct (H2 _ _ _ Heqp _ Hj') as [[]|Hr]. right. lia.
Qed.

Lemma settled_step remove remove' removed j ig pr :
  settled remove' removed j ig pr ->
  (In j remove' -> In j remove) ->
  settled remove removed j ig pr.
Proof. unfold settled. destruct (pr || ig); auto. Qed.

Lemma parseIf_loop_plain
      fuel start ignore i prune done remove st end_ removed st' :
  parseIf_loop lines fuel start ignore i prune done remove st
  = (Return (end_, removed), st') ->
  forall s j ig pr dn line,
    In (Scan s j ig pr dn) (trace st') ->
    nth_error lines j = Some line ->
    getToken settings line = None ->
    In (Scan s j ig pr dn) (trace st) \/
    (i <= j <= end_ /\ settled remove removed j ig pr).
Proof.
  revert end_ removed st'.
  by_cases (fun (fuel start : nat) (ignore : bool) (i : nat)
                (prune done : bool) (remove : list nat) (st : state)
                (r : outcome (nat * list nat) * state) =>
              forall end_ removed st',
                r = (Return (end_, removed), st') ->
                forall s j ig pr dn line,
                  In (Scan s j ig pr dn) (trace st') ->
                  nth_error lines j = Some line ->
                  getToken settings line = None ->
                  In (Scan s j ig pr dn) (trace st) \/
                  (i <= j <= end_ /\ settled remove removed j ig pr));
    try discriminate;
    try match goal with
        | Hc : catch _ _ _ = (Return _, _) |- _ =>
            apply catch_Return in Hc;
            pose proof (parseIf_loop_end _ _ _ _ _ _ _ _ _ _ _ Hc) as Hn
        end;
    try match goal with
        | IH : forall e r s, ?x = (Return (e, r), s) -> _,
          Hr : ?x = (Return _, _), Hin : In _ (trace _) |- _ =>
            pose proof (parseIf_loop_end _ _ _ _ _ _ _ _ _ _ _ Hr) as Hend;
            pose proof (parseIf_loop_removed_range _ _ _ _ _ _ _ _ _ _ _ Hr)
              as Hrange;
            match x with
            | parseIf_loop lines ?f ?s ?ig ?k ?p ?d ?rm ?st0 =>
                pose proof (parseIf_loop_suppresses f s ig k p d rm st0) as Hs
            end;
            rewrite Hr in Hs; destruct (Hs _ _ eq_refl) as [Hincl _];
            clear Hs;
            match goal with
            | Hl : nth_error lines _ = Some _, Ht : getToken _ _ = None
              |- _ =>
                destruct (IH _ _ _ Hr _ _ _ _ _ _ Hin Hl Ht)
                  as [Hin2|[Hj Hset]];
                [clear IH Hin|]
            end
        end;
    try match goal with
        | H : (Return _, _) = _ |- _ => inversion H; subst; clear H
        end;
    cbn [snd fst] in *; back_to_scan;
    (* the scan was made further down in this frame *)
    try match goal with
        | Hset : settled _ _ _ _ _ |- _ =>
            right; split; [lia|];
            apply settled_step with (1 := Hset); intros Hin';
            repeat match goal with
                   | H : In _ (_ ++ ?l),
                     Hc : parseIf_loop _ _ _ _ _ _ _ _ _
                          = (Return (_, ?l), _) |- _ =>
                       apply in_app_or in H as [H|H];
                       [|apply (parseIf_loop_removed_range
                                  _ _ _ _ _ _ _ _ _ _ _ Hc) in H
                         as [[]|H]; lia]
                   | H : In _ (push_if _ _ _ ++ [_]) |- _ =>
                       apply in_pushed_inv in H as [H| ->]; [|lia]
                   | H : In _ (push_if _ _ _) |- _ =>
                       apply in_push_if_inv in H as [H| ->]; [|lia]
                   end;
            assumption
        end;
    (* the scan is the one of this iteration, or an earlier one *)
    try match goal with
        | H : In _ (trace (note _ _)) |- _ =>
            apply in_trace_note in H as [H|H];
            [now left | inversion H; subst; clear H; same_line]
        end.
  - right. split; [lia|]. unfold settled, push_if in *.
    destruct (prune || ignore).
    + apply Hincl, in_or_app. right. now left.
    + intros Hi. destruct (Hrange _ Hi) as [Hi'|Hi']; [exact Hi'|lia].
  - destruct (H2 _ _ _ Heqp _ _ _ _ _ _ Hin2 H6 H7) as [Hin|[Hj Hset]].
    + apply in_trace_note in Hin as [Hin|Hin]; [now left|].
      inversion Hin; subst. same_line.
    + right. split; [lia|]. unfold settled in *.
      destruct (pr || ig).
      * apply Hincl, in_or_app. now right.
      * intros Hjr.
        destruct (Hrange _ Hjr) as [[Hjr'|Hjr']%in_app_or|Hjr']; [| |lia].
        -- apply in_pushed_inv in Hjr' as [Hjr'| ->]; [exact Hjr'|].
           same_line.
        -- destruct (Hset Hjr').
Qed.

Lemma parseIf_removed_range start ignore st end_ removed st' j :
  parseIf lines start ignore st = (Return (end_, removed), st') ->
  In j removed -> start <= j <= end_.
Proof.
  unfold parseIf, parseIf_fuel. intros H%catch_Return Hj.
  destruct (parseIf_loop_removed_range _ _ _ _ _ _ _ _ _ _ _ H _ Hj)
    as [[]|Hr].
  exact Hr.
Qed.

Lemma parseIf_plain start ignore st end_ removed st' s j ig pr dn line :
  parseIf lines start ignore st = (Return (end_, removed), st') ->
  In (Scan s j ig pr dn) (trace st') ->
  nth_error lines j = Some line ->
  getToken settings line = None ->
  In (Scan s j ig pr dn) (trace st) \/
  (start <= j <= end_ /\ settled [] removed j ig pr).
Proof.
  unfold parseIf, parseIf_fuel. intros H%catch_Return.
  now apply parseIf_loop_plain with (1 := H).
Qed.

Lemma format_loop_removed_range fuel i remove st removed st' j :
  format_loop lines fuel i remove st = (Return removed, st') ->
  In j removed -> In j remove \/ i <= j.
Proof.
  revert i remove st. induction fuel as [|fuel IH]; intros i remove st;
    [discriminate|].
  cbn [format_loop].
  destruct (nth_error lines i) as [line0|].
  2:{ intros H. inversion H; subst. now left. }
  assert (forall remove st,
             format_loop lines fuel (S i) remove st = (Return removed, st') ->
             In j removed -> In j remove \/ i <= j) as Hnext.
  { intros remove0 st0 H Hj. destruct (IH _ _ _ H Hj); [now left|right; lia]. }
  destruct (getToken settings line0) as [[[[token0 e0] c0] l0]|];
    [|apply Hnext].
  destruct (token0 =? "if"); [|apply Hnext].
  destruct (parseIf lines i false st) as [[[end_ removed0]|e|] st0] eqn:Hp;
    try discriminate.
  intros H Hj. pose proof (parseIf_end _ _ _ _ _ _ Hp) as Hend.
  destruct (IH _ _ _ H Hj) as [[Hj'|Hj']%in_app_or|Hj'];
    [now left| |right; lia].
  right. apply (parseIf_removed_range _ _ _ _ _ _ _ Hp) in Hj'. lia.
Qed.

Lemma format_loop_plain fuel i remove st removed st' s j ig pr dn line :
  format_loop lines fuel i remove st = (Return removed, st') ->
  In (Scan s j ig pr dn) (trace st') ->
  nth_error lines j = Some line ->
  getToken settings line = None ->
  In (Scan s j ig pr dn) (trace st) \/
  (i <= j /\ settled remove removed j ig pr).
Proof.
  revert i remove st. induction fuel as [|fuel IH]; intros i remove st;
    [discriminate|].
  cbn [format_loop].
  destruct (nth_error lines i) as [line0|].
  2:{ intros H. inversion H; subst. now left. }
  assert (forall st0,
             format_loop lines fuel (S i) remove st0 = (Return removed, st') ->
             In (Scan s j ig pr dn) (trace st') ->
             nth_error lines j = Some line ->
             getToken settings line = None ->
             In (Scan s j ig pr dn) (trace st0) \/
             (i <= j /\ settled remove removed j ig pr)) as Hnext.
  { intros st0 H Hin Hl Ht.
    destruct (IH _ _ _ H Hin Hl Ht) as [H'|[Hj Hset]];
      [now left|right; split; [lia|exact Hset]]. }
  destruct (getToken settings line0) as [[[[token0 e0] c0] l0]|];
    [|apply Hnext].
  destruct (token0 =? "if"); [|apply Hnext].
  destruct (parseIf lines i false st) as [[[end_ removed0]|e|] st0] eqn:Hp;
    try discriminate.
  intros H Hin Hl Ht.
  pose proof (parseIf_end _ _ _ _ _ _ Hp) as Hend.
  destruct (format_loop_suppresses _ _ _ _ _ _ H) as [Hincl _].
  destruct (IH _ _ _ H Hin Hl Ht) as [Hin0|[Hj Hset]].
  - destruct (parseIf_plain _ _ _ _ _ _ _ _ _ _ _ _ Hp Hin0 Hl Ht)
      as [Hin1|[Hj Hset]]; [now left|right].
    split; [lia|]. unfold settled in *. destruct (pr || ig).
    + apply Hincl, in_or_app. now right.
    + intros Hjr.
      destruct (format_loop_removed_range _ _ _ _ _ _ _ H Hjr)
        as [[Hjr'|Hjr']%in_app_or|Hjr']; [exact Hjr'| |lia].
      destruct (Hset Hjr').
  - right. split; [lia|].
    apply settled_step with (1 := Hset).
    intros [Hjr|Hjr]%in_app_or; [exact Hjr|].
    apply (parseIf_removed_range _ _ _ _ _ _ _ Hp) in Hjr. lia.
Qed.

(** ** A frame that is ignored, or pruning after a match *)

Lemma warnings_evalExpression expression line st :
  warnings (snd (evalExpression expression line st)) = warnings st.
Proof.
  unfold evalExpression.
  destruct (newFunction (body_of expression)) as [msg|fn]; [reflexivity|].
  now destruct (fn _) as [[truthy|[msg| |repr]] w'].
Qed.

(** From such a state on, nothing is passed to [warn]. *)
Lemma inactive_loop_no_warnings fuel start ignore i prune done remove st :
  ignore = true \/ (prune = true /\ done = true /\ start < i) ->
  warnings (snd (parseIf_loop lines fuel start ignore i prune done remove st))
  = warnings st.
Proof.
  by_cases (fun (fuel start : nat) (ignore : bool) (i : nat)
                (prune done : bool) (remove : list nat) (st : state)
                (r : outcome (nat * list nat) * state) =>
              ignore = true \/ (prune = true /\ done = true /\ start < i) ->
              warnings (snd r) = warnings st);
    try reflexivity;
    try match goal with
        | Hc : catch _ _ ?r1 = (_, ?s) |- _ =>
            assert (snd r1 = s)
              by (rewrite <- (snd_catch lines i r1), Hc; reflexivity)
        end;
    try match goal with
        | He : evalExpression ?e ?l ?s0 = (_, ?s) |- _ =>
            pose proof (warnings_evalExpression e l s0) as Hw;
            rewrite He in Hw; cbn [snd] in Hw
        end;
    try match goal with
        | Hpd : _ && _ = false, Hpre : false = true \/ _ |- _ =>
            destruct Hpre as [|(-> & -> & _)]; discriminate
        end;
    match goal with
    | Hpre : ?ig = true \/ (?pr = true /\ ?dn = true /\ _ < _) |- _ =>
        assert (pr || ig = true) as Hnested
          by (destruct Hpre as [->|(-> & _)]; [apply orb_true_r|reflexivity]);
        repeat match goal with
               | IH : _ \/ _ -> warnings (snd _) = _ |- _ =>
                   rewrite IH in *;
                   [|first [ left; exact Hnested
                           | destruct Hpre as [->|(-> & -> & ?)];
                             [left; reflexivity
                             |right; repeat split; lia]]]
               end;
        cbn [snd note warnings] in *; try congruence
    end;
    match goal with
    | Hc : catch _ _ _ = _, IH : _ -> warnings (snd _) = _ |- _ =>
        pose proof (f_equal snd Hc) as Hs; rewrite snd_catch in Hs;
        cbn [snd] in Hs; rewrite Hs in IH;
        specialize (IH (or_introl Hnested))
    end;
    try congruence.
  apply catch_Return, parseIf_loop_end in Heqp.
  rewrite H3; [congruence|].
  destruct H4 as [->|(-> & -> & ?)];
    [left; reflexivity|right; repeat split; lia].
Qed.

(** From such a state on, every line up to the [endif] of the frame is
    suppressed. *)
Lemma inactive_loop_suppresses_all
      fuel start ignore i prune done remove st end_ removed st' :
  parseIf_loop lines fuel start ignore i prune done remove st
  = (Return (end_, removed), st') ->
  ignore = true \/ (prune = true /\ done = true /\ start < i) ->
  forall j, i <= j <= end_ -> In j removed.
Proof.
  revert end_ removed st'.
  by_cases (fun (fuel start : nat) (ignore : bool) (i : nat)
                (prune done : bool) (remove : list nat) (st : state)
                (r : outcome (nat * list nat) * state) =>
              forall end_ removed st',
                r = (Return (end_, removed), st') ->
                ignore = true \/ (prune = true /\ done = true /\ start < i) ->
                forall j, i <= j <= end_ -> In j removed);
    try discriminate;
    try match goal with
        | Hpd : _ && _ = false, Hpre : false = true \/ _ |- _ =>
            destruct Hpre as [|(-> & -> & _)]; discriminate
        end;
    try match goal with
        | Hr : parseIf_loop lines ?f ?s ?ig ?k ?p ?d ?rm ?st0 = (Return _, _)
          |- _ =>
            pose proof (parseIf_loop_suppresses f s ig k p d rm st0) as Hs;
            rewrite Hr in Hs; destruct (Hs _ _ eq_refl) as [Hincl _];
            clear Hs
        end;
    try match goal with
        | Hc : catch _ _ _ = (Return _, _) |- _ =>
            apply catch_Return in Hc;
            pose proof (parseIf_loop_end _ _ _ _ _ _ _ _ _ _ _ Hc)
        end;
    try match goal with
        | H : (Return _, _) = _ |- _ => inversion H; subst
        end;
    match goal with
    | Hpre : ?ig = true \/ (?pr = true /\ ?dn = true /\ _ < _),
      Hj : ?i <= ?j <= _ |- In ?j _ =>
        assert (pr || ig = true) as Hnested
          by (destruct Hpre as [->|(-> & _)]; [apply orb_true_r|reflexivity]);
        rewrite ?Hnested in *; cbn [push_if] in *;
        destruct (Nat.eq_dec j i) as [->|Hne];
        [ first [ apply in_or_app; right; now left
                | apply Hincl, in_or_app; right; now left
                | apply Hincl, in_or_app; left;
                  apply in_or_app; right; now left ]
        | try match goal with
              | Hn : i <= ?n < _ |- _ => destruct (le_gt_dec j n)
              end;
          first
            [ match goal with
              | IH : forall e r s, _ = (Return (e, r), s) -> _ |- _ =>
                  solve [eapply IH;
                         [ eassumption
                         | first [ left; reflexivity
                                 | destruct Hpre as [->|(-> & -> & ?)];
                                   [left; reflexivity
                                   |right; repeat split; lia] ]
                         | lia ]]
              end
            | match goal with
              | IH : forall e r s, _ = (Return (e, r), s) -> _ |- _ =>
                  solve [apply Hincl, in_or_app; right;
                         eapply IH; [eassumption | left; reflexivity | lia]]
              end
            | lia ] ]
    end.
Qed.

(** ** Every error that leaves a frame is located *)

Lemma evalExpression_throw_line expression line st e st' :
  evalExpression expression line st = (Throw e, st') ->
  err_line e = Some line \/ err_line e = None.
Proof.
  unfold evalExpression.
  destruct (newFunction (body_of expression)) as [msg|fn].
  - intros H. inversion H. now right.
  - destruct (fn _) as [[truthy|[msg| |repr]] w']; intros H; inversion H;
      cbn; auto.
Qed.

Lemma branch_throw_line token expression i prune done st e st' :
  branch token expression i prune done st = (Throw e, st') ->
  err_line e = Some i \/ err_line e = None.
Proof.
  unfold branch.
  destruct (token =? "else"); [discriminate|].
  destruct ((token =? "elseif") || (token =? "elif")); [|discriminate].
  destruct (evalExpression expression i st) as [[exp|e0|] st0] eqn:He;
    try discriminate.
  intros H. inversion H; subst. eapply evalExpression_throw_line; eauto.
Qed.

Lemma locate_line start e l :
  err_line (locate lines start e) = Some l -> err_line e = Some l.
Proof.
  unfold locate.
  destruct (nth_error lines _) as [text|]; [|discriminate].
  now destruct (getToken settings text) as [[[[? ?] ?] ?]|].
Qed.

Lemma parseIf_loop_error_line fuel start ignore i prune done remove st e st' l :
  parseIf_loop lines fuel start ignore i prune done remove st = (Throw e, st') ->
  err_line e = Some l -> l < length lines.
Proof.
  revert e st' l.
  by_cases (fun (fuel start : nat) (ignore : bool) (i : nat)
                (prune done : bool) (remove : list nat) (st : state)
                (r : outcome (nat * list nat) * state) =>
              forall e st' l,
                r = (Throw e, st') -> err_line e = Some l ->
                l < List.length lines);
    try discriminate; eauto;
    try match goal with
        | H : (Throw _, _) = (Throw _, _) |- _ => inversion H; subst; clear H
        end;
    try match goal with
        | H : err_line (unterminated _) = Some _ |- _ => discriminate
        end;
    try match goal with
        | He : evalExpression _ _ _ = (Throw _, _), Hl : err_line _ = Some _
          |- _ =>
            apply evalExpression_throw_line in He as [He|He];
            rewrite He in Hl; [inversion Hl; subst|discriminate]
        | He : branch _ _ _ _ _ _ = (Throw _, _), Hl : err_line _ = Some _
          |- _ =>
            apply branch_throw_line in He as [He|He];
            rewrite He in Hl; [inversion Hl; subst|discriminate]
        | Hl : err_line (mkError _ _ _) = Some _ |- _ =>
            cbn in Hl; inversion Hl; subst
        end;
    try (apply nth_error_Some; congruence).
  apply catch_Throw in Heqp as (e1 & Hr & ->).
  apply locate_line in H4. eauto.
Qed.

Lemma locate_located start e text :
  nth_error lines start = Some text ->
  (forall l, err_line e = Some l -> l < length lines) ->
  exists loc,
    err_location (locate lines start e) = Some loc /\
    located_in settings lines None loc /\
    message (locate lines start e) = message e /\
    err_line (locate lines start e) = err_line e.
Proof.
  intros Hs Hl. unfold locate.
  destruct (err_line e) as [l|] eqn:He.
  - destruct (nth_error lines l) as [t|] eqn:Ht.
    2:{ apply nth_error_None in Ht. specialize (Hl l eq_refl). lia. }
    destruct (getToken settings t) as [[[[? ?] c] n]|] eqn:Hg;
      (eexists; split; [reflexivity|]; split; [|now split]);
      exists l, t; now rewrite Hg.
  - rewrite Hs.
    destruct (getToken settings text) as [[[[? ?] c] n]|] eqn:Hg;
      (eexists; split; [reflexivity|]; split; [|now split]);
      exists start, text; now rewrite Hg.
Qed.

Lemma parseIf_throws_located start ignore st e st' text :
  nth_error lines start = Some text ->
  parseIf lines start ignore st = (Throw e, st') ->
  exists loc,
    err_location e = Some loc /\ located_in settings lines None loc.
Proof.
  unfold parseIf, parseIf_fuel.
  intros Hs (e1 & Hr & ->)%catch_Throw.
  destruct (locate_located start e1 text Hs) as (loc & Hloc & Hin & _).
  - intros l Hl. eapply parseIf_loop_error_line; eauto.
  - eauto.
Qed.

Lemma format_loop_throws_located fuel i remove st e st' :
  format_loop lines fuel i remove st = (Throw e, st') ->
  exists loc,
    err_location e = Some loc /\ located_in settings lines None loc.
Proof.
  revert i remove st. induction fuel as [|fuel IH]; intros i remove st;
    [discriminate|].
  cbn [format_loop].
  destruct (nth_error lines i) as [line0|] eqn:Hl; [|discriminate].
  destruct (getToken settings line0) as [[[[token0 e0] c0] l0]|]; [|apply IH].
  destruct (token0 =? "if"); [|apply IH].
  destruct (parseIf lines i false st) as [[[end_ removed0]|e1|] st0] eqn:Hp;
    try discriminate; [apply IH|].
  intros H. inversion H; subst.
  eapply parseIf_throws_located; eauto.
Qed.

Lemma parseIf_loop_end_removed
      fuel start ignore i prune done remove st end_ removed st' :
  parseIf_loop lines fuel start ignore i prune done remove st
  = (Return (end_, removed), st') ->
  In end_ removed.
Proof.
  revert end_ removed st'.
  by_cases (fun (fuel start : nat) (ignore : bool) (i : nat)
                (prune done : bool) (remove : list nat) (st : state)
                (r : outcome (nat * list nat) * state) =>
              forall end_ removed st',
                r = (Return (end_, removed), st') -> In end_ removed);
    try discriminate; eauto.
  match goal with H : (Return _, _) = _ |- _ => inversion H; subst end.
  apply in_pushed.
Qed.

Lemma format_loop_without_if fuel i remove st :
  (forall line, In line lines ->
                forall expression column length,
                  getToken settings line
                  <> Some ("if", expression, column, length)) ->
  length lines - i < fuel ->
  format_loop lines fuel i remove st = (Return remove, st).
Proof.
  intros Hno. revert i.
  induction fuel as [|fuel IH]; intros i Hf; [lia|].
  cbn [format_loop].
  destruct (nth_error lines i) as [line|] eqn:Hl; [|reflexivity].
  assert (i < length lines) by (apply nth_error_Some; congruence).
  destruct (getToken settings line) as [[[[token e] c] l]|] eqn:Ht;
    [|apply IH; lia].
  destruct (String.eqb_spec token "if") as [->|Hne]; [|apply IH; lia].
  apply nth_error_In in Hl. now elim (Hno _ Hl e c l).
Qed.

(** ** Where the [catch] of a frame locates an error *)

(** An error that carries a [line] is located there by every frame. *)
Lemma locate_keeps_line start e l text :
  err_line e = Some l ->
  nth_error lines l = Some text ->
  exists loc,
    err_location (locate lines start e) = Some loc /\
    loc_line loc = l + 1 /\ loc_lineText loc = text /\
    message (locate lines start e) = message e /\
    err_line (locate lines start e) = Some l.
Proof.
  intros Hl Ht. unfold locate. rewrite Hl, Ht.
  destruct (getToken settings text) as [[[[? ?] ?] ?]|]; cbn; eauto 6.
Qed.

(** An error without [line] is located where the frame at hand opens, and
    still has no [line] for the frame around it. *)
Lemma locate_falls_back start e text :
  err_line e = None ->
  nth_error lines start = Some text ->
  exists loc,
    err_location (locate lines start e) = Some loc /\
    loc_line loc = start + 1 /\ loc_lineText loc = text /\
    message (locate lines start e) = message e /\
    err_line (locate lines start e) = None.
Proof.
  intros Hl Ht. unfold locate. rewrite Hl, Ht.
  destruct (getToken settings text) as [[[[? ?] ?] ?]|]; cbn; eauto 6.
Qed.

(** ** An expression that fails *)










(** ** Every directive line of a frame is suppressed *)

Lemma parseIf_loop_covers
      fuel start ignore i prune done remove st end_ removed st' :
  parseIf_loop lines fuel start ignore i prune done remove st
  = (Return (end_, removed), st') ->
  incl remove removed /\
  forall j line td,
    i <= j <= end_ ->
    nth_error lines j = Some line ->
    getToken settings line = Some td ->
    In j removed.
Proof.
  revert end_ removed st'.
  by_cases (fun (fuel start : nat) (ignore : bool) (i : nat)
                (prune done : bool) (remove : list nat) (st : state)
                (r : outcome (nat * list nat) * state) =>
              forall end_ removed st',
                r = (Return (end_, removed), st') ->
                incl remove removed /\
                forall j line td,
                  i <= j <= end_ ->
                  nth_error lines j = Some line ->
                  getToken settings line = Some td ->
                  In j removed);
    try discriminate;
    try match goal with
        | IH : forall e r s, ?x = (Return (e, r), s) -> _ /\ _,
          Hr : ?x = (Return (?end_, _), _) |- _ =>
            lazymatch x with
            | parseIf_loop _ _ _ _ (S ?k) _ _ ?rm _ =>
                destruct (IH _ _ _ Hr) as [Hincl Hcov]; clear IH
            end
        end;
    try match goal with
        | H : (Return _, _) = (Return _, _) |- _ =>
            inversion H; subst; clear H;
            split; [apply incl_pushed|];
            intros j line0 td0 Hj Hl0 Ht0;
            assert (j = end_) as -> by lia; apply in_pushed
        end;
    try solve
        [ split;
          [ eapply incl_tran; [|exact Hincl];
            first [apply incl_push_if | apply incl_pushed]
          | intros j line0 td0 Hj Hl0 Ht0;
            destruct (Nat.eq_dec j i) as [->|Hne];
            [ first [ apply Hincl, in_pushed | same_line ]
            | apply (Hcov j line0 td0); [lia|assumption|assumption] ] ]
        | split;
          [ eapply incl_tran; [|exact Hincl]; apply incl_pushed
          | intros j line0 td0 Hj Hl0 Ht0;
            destruct (Nat.eq_dec j start) as [->|Hne];
            [ apply Hincl, in_pushed
            | apply (Hcov j line0 td0); [lia|assumption|assumption] ] ] ].
  apply catch_Return in Heqp.
  destruct (H2 _ _ _ Heqp) as [_ Hnested]. split.
  - intros x Hx. apply Hincl, in_or_app. left. now apply incl_pushed.
  - intros j line0 td0 Hj Hl0 Ht0.
    destruct (le_gt_dec j n) as [Hle|Hgt].
    + apply Hincl, in_or_app. right.
      apply (Hnested j line0 td0); [lia|assumption|assumption].
    + apply (Hcov j line0 td0); [lia|assumption|assumption].
Qed.

Lemma parseIf_covers start ignore st end_ removed st' j line td :
  parseIf lines start ignore st = (Return (end_, removed), st') ->
  start <= j <= end_ ->
  nth_error lines j = Some line ->
  getToken settings line = Some td ->
  In j removed.
Proof.
  unfold parseIf, parseIf_fuel. intros H%catch_Return.
  apply parseIf_loop_covers in H as [_ H]. apply H.
Qed.

Lemma format_loop_covers fuel i remove st removed st' :
  format_loop lines fuel i remove st = (Return removed, st') ->
  incl remove removed /\
  forall j line expression column length,
    i <= j ->
    nth_error lines j = Some line ->
    getToken settings line = Some ("if", expression, column, length) ->
    In j removed.
Proof.
  revert i remove st removed st'.
  induction fuel as [|fuel IH]; intros i remove st removed st';
    [discriminate|].
  cbn [format_loop].
  destruct (nth_error lines i) as [line0|] eqn:Hl0.
  2:{ intros H. inversion H; subst. split; [apply incl_refl|].
      intros j line e c l Hj Hl. apply nth_error_None in Hl0.
      assert (j < List.length lines) by (apply nth_error_Some; congruence).
      lia. }
  assert (Hstep : forall removed st',
             format_loop lines fuel (S i) remove st = (Return removed, st') ->
             (forall e c l, getToken settings line0 <> Some ("if", e, c, l)) ->
             incl remove removed /\
             forall j line expression column length,
               i <= j ->
               nth_error lines j = Some line ->
               getToken settings line
               = Some ("if", expression, column, length) ->
               In j removed).
  { intros removed0 st0 Hr Hno. apply IH in Hr as [Hincl Hcov].
    split; [exact Hincl|].
    intros j line e c l Hj Hl Ht.
    destruct (Nat.eq_dec j i) as [->|Hne].
    - rewrite Hl0 in Hl. inversion Hl; subst. now elim (Hno e c l).
    - apply (Hcov j line e c l); [lia|assumption|assumption]. }
  destruct (getToken settings line0) as [[[[token0 e0] c0] l0]|] eqn:Ht0.
  2:{ intros H. apply (Hstep _ _ H). discriminate. }
  destruct (String.eqb_spec token0 "if") as [->|Hne].
  2:{ intros H. apply (Hstep _ _ H). intros e c l Heq. inversion Heq.
      congruence. }
  clear Hstep.
  destruct (parseIf lines i false st) as [[[end_ removed0]|e|] st0] eqn:Hp;
    try discriminate.
  intros [Hincl Hcov]%IH.
  pose proof (parseIf_end _ _ _ _ _ _ Hp) as Hend.
  split.
  - intros x Hx. apply Hincl, in_or_app. now left.
  - intros j line e c l Hj Hl Ht.
    destruct (le_gt_dec j end_) as [Hle|Hgt].
    + apply Hincl, in_or_app. right.
      eapply parseIf_covers; [exact Hp|lia|exact Hl|exact Ht].
    + apply (Hcov j line e c l); [lia|assumption|assumption].
Qed.

(** ** The diagnostics are passed to [warn] in the order of the lines *)

Lemma in_order_mono bound bound' msgs :
  bound <= bound' -> in_order bound msgs -> in_order bound' msgs.
Proof.
  intros Hle [Hs Hb]. split; [exact Hs|].
  eapply Forall_impl; [|exact Hb]. cbn. intros; lia.
Qed.

Lemma sorted_snoc xs x :
  StronglySorted lt xs -> Forall (fun y => y < x) xs ->
  StronglySorted lt (xs ++ [x]).
Proof.
  induction 1 as [|y xs Hs IH Hy]; intros Hx; cbn.
  - repeat constructor.
  - inversion Hx; subst. constructor; [now apply IH|].
    apply Forall_app. split; [exact Hy|].
    constructor; [assumption|constructor].
Qed.

Lemma in_order_warn i line expression column length st :
  in_order i (warnings st) ->
  in_order (S i)
           (warnings (warn (diagnostic i line expression column length) st)).
Proof.
  intros [Hs Hb]. cbn [warn warnings]. split.
  - rewrite map_app. apply sorted_snoc; [exact Hs|].
    apply Forall_map. eapply Forall_impl; [|exact Hb].
    unfold line_of, diagnostic. cbn. intros; lia.
  - apply Forall_app. split.
    + eapply Forall_impl; [|exact Hb]. cbn. intros; lia.
    + constructor; [|constructor]. unfold line_of, diagnostic. cbn. lia.
Qed.

Lemma warnings_branch token expression i prune done st :
  warnings (snd (branch token expression i prune done st)) = warnings st.
Proof.
  unfold branch.
  destruct (token =? "else"); [reflexivity|].
  destruct ((token =? "elseif") || (token =? "elif")); [|reflexivity].
  pose proof (warnings_evalExpression expression i st) as H.
  now destruct (evalExpression expression i st) as [[exp|e|] st2].
Qed.

Lemma parseIf_loop_in_order fuel start ignore i prune done remove st :
  in_order i (warnings st) ->
  StronglySorted lt
    (map line_of
         (warnings (snd (parseIf_loop lines fuel start ignore i prune done
                                      remove st)))) /\
  forall end_ removed,
    fst (parseIf_loop lines fuel start ignore i prune done remove st)
    = Return (end_, removed) ->
    in_order (S end_)
      (warnings (snd (parseIf_loop lines fuel start ignore i prune done
                                   remove st))).
Proof.
  by_cases (fun (fuel start : nat) (ignore : bool) (i : nat)
                (prune done : bool) (remove : list nat) (st : state)
                (r : outcome (nat * list nat) * state) =>
              in_order i (warnings st) ->
              StronglySorted lt (map line_of (warnings (snd r))) /\
              forall end_ removed,
                fst r = Return (end_, removed) ->
                in_order (S end_) (warnings (snd r)));
    try match goal with
        | He : evalExpression ?e ?l ?s0 = (_, ?s) |- _ =>
            pose proof (warnings_evalExpression e l s0) as Hw;
            rewrite He in Hw; cbn [snd note warnings] in Hw
        | He : branch ?t ?e ?l ?p ?d ?s0 = (_, ?s) |- _ =>
            pose proof (warnings_branch t e l p d s0) as Hw;
            rewrite He in Hw; cbn [snd note warnings] in Hw
        end;
    cbn [fst snd note warnings] in *;
    try match goal with
        | Hc : catch _ ?k ?r1 = (_, ?s),
          IH : in_order _ _ -> _ /\ _, H : in_order _ (warnings _) |- _ =>
            destruct (IH H) as [Hsorted Hbound]; clear IH;
            destruct r1 as [[[n1 l1]|e1|] s1];
            cbn [catch fst snd] in Hc, Hsorted, Hbound;
            inversion Hc; subst;
            try (specialize (Hbound _ _ eq_refl))
        end;
    try match goal with
        | IH : in_order (S _) (warnings _) -> ?G |- ?G =>
            apply IH;
            first [ apply in_order_warn; rewrite Hw; assumption
                  | eapply in_order_mono; [|try rewrite Hw; eassumption]; lia ]
        end;
    try solve
        [ split;
          [ try rewrite Hw;
            match goal with
            | H : in_order _ _ |- _ => apply H
            end
          | intros end_ removed Heq;
            first [ discriminate Heq
                  | inversion Heq; subst;
                    eapply in_order_mono;
                    [|try rewrite Hw; eassumption]; lia ] ]
        | split; [assumption|discriminate] ].
Qed.

Lemma parseIf_in_order start ignore st :
  in_order start (warnings st) ->
  StronglySorted lt
    (map line_of (warnings (snd (parseIf lines start ignore st)))) /\
  forall end_ removed,
    fst (parseIf lines start ignore st) = Return (end_, removed) ->
    in_order (S end_) (warnings (snd (parseIf lines start ignore st))).
Proof.
  intros H. unfold parseIf, parseIf_fuel. rewrite snd_catch.
  destruct (parseIf_loop_in_order (enough lines) start ignore start false
              false [] st H) as [Hs Hb].
  split; [exact Hs|].
  intros end_ removed Hr. apply (Hb end_ removed).
  destruct (parseIf_loop _ _ _ _ _ _ _ _ _) as [[a|e|] st']; cbn in *;
    congruence.
Qed.

Lemma format_loop_in_order fuel i remove st :
  in_order i (warnings st) ->
  StronglySorted lt
    (map line_of (warnings (snd (format_loop lines fuel i remove st)))).
Proof.
  revert i remove st.
  induction fuel as [|fuel IH]; intros i remove st H; [apply H|].
  cbn [format_loop].
  assert (in_order (S i) (warnings st)) as Hnext
      by (eapply in_order_mono; [|exact H]; lia).
  destruct (nth_error lines i) as [line0|]; [|apply H].
  destruct (getToken settings line0) as [[[[token0 ?] ?] ?]|];
    [|now apply IH].
  destruct (token0 =? "if"); [|now apply IH].
  destruct (parseIf_in_order i false st H) as [Hs Hb].
  destruct (parseIf lines i false st) as [[[end_ removed]|e|] st'];
    cbn [fst snd] in *; try exact Hs.
  apply IH. now apply (Hb end_ removed).
Qed.

(** ** Every [if] of a text that [format] accepts is closed *)

Lemma format_loop_if_closed fuel i remove st removed st' j line expression
      column length :
  format_loop lines fuel i remove st = (Return removed, st') ->
  i <= j ->
  nth_error lines j = Some line ->
  getToken settings line = Some ("if", expression, column, length) ->
  exists end_ line' e c l,
    j < end_ /\
    nth_error lines end_ = Some line' /\
    getToken settings line' = Some ("endif", e, c, l).
Proof.
  intros Hr Hj Hl Ht. revert i remove st Hr Hj.
  induction fuel as [|fuel IH]; intros i remove st; [discriminate|].
  cbn [format_loop].
  destruct (nth_error lines i) as [line0|] eqn:Hl0.
  2:{ intros _ Hj. apply nth_error_None in Hl0.
      assert (j < List.length lines) by (apply nth_error_Some; congruence).
      lia. }
  assert (Hstep : format_loop lines fuel (S i) remove st
                  = (Return removed, st') ->
                  (forall e c l, getToken settings line0
                                 <> Some ("if", e, c, l)) ->
                  i <= j ->
                  exists end_ line' e c l,
                    j < end_ /\
                    nth_error lines end_ = Some line' /\
                    getToken settings line' = Some ("endif", e, c, l)).
  { intros Hr Hno Hj. apply (IH _ _ _ Hr).
    destruct (Nat.eq_dec j i) as [->|Hne]; [|lia].
    rewrite Hl0 in Hl. inversion Hl; subst.
    now elim (Hno expression column length). }
  destruct (getToken settings line0) as [[[[token0 e0] c0] l0]|] eqn:Ht0.
  2:{ intros H. apply (Hstep H). discriminate. }
  destruct (String.eqb_spec token0 "if") as [->|Hne].
  2:{ intros H. apply (Hstep H). intros e c l Heq. inversion Heq.
      congruence. }
  clear Hstep.
  destruct (parseIf lines i false st) as [[[end_ removed0]|e|] st0] eqn:Hp;
    try discriminate.
  intros Hr Hj.
  destruct (le_gt_dec j end_) as [Hle|Hgt]; [|apply (IH _ _ _ Hr); lia].
  unfold parseIf, parseIf_fuel in Hp. apply catch_Return in Hp.
  apply parseIf_loop_returns_at_endif in Hp as (line' & e & c & l & Hl' & Ht').
  exists end_, line', e, c, l. split; [|split; assumption].
  destruct (Nat.eq_dec j end_) as [->|Hne]; [|lia].
  rewrite Hl in Hl'. inversion Hl'; subst. rewrite Ht in Ht'. discriminate.
Qed.

(** ** The evaluator is called in the order of the lines *)

Lemma evaluated_below_mono bound bound' st :
  bound <= bound' -> evaluated_below bound st -> evaluated_below bound' st.
Proof.
  intros Hle [Hs Hb]. split; [exact Hs|].
  eapply Forall_impl; [|exact Hb]. cbn. intros; lia.
Qed.

Lemma evaluated_below_note bound start i ignore prune done st :
  evaluated_below bound st ->
  evaluated_below bound (note (Scan start i ignore prune done) st).
Proof.
  unfold evaluated_below, evaluations. cbn [note trace].
  now rewrite flat_map_app, app_nil_r.
Qed.

Lemma evaluated_below_warn bound msg st :
  evaluated_below bound st -> evaluated_below bound (warn msg st).
Proof. exact (fun H => H). Qed.

Lemma evaluated_below_evalExpression expression line st :
  evaluated_below line st ->
  evaluated_below (S line) (snd (evalExpression expression line st)).
Proof.
  intros [Hs Hb].
  assert (Ht : trace (snd (evalExpression expression line st))
               = trace st ++ [Eval line expression]).
  { unfold evalExpression.
    destruct (newFunction (body_of expression)) as [msg|fn]; [reflexivity|].
    now destruct (fn _) as [[truthy|[msg| |repr]] w']. }
  unfold evaluated_below, evaluations. rewrite Ht, flat_map_app.
  cbn [flat_map app]. split.
  - apply sorted_snoc; assumption.
  - apply Forall_app. split.
    + eapply Forall_impl; [|exact Hb]. cbn. intros; lia.
    + constructor; [lia|constructor].
Qed.

Lemma evaluated_below_branch token expression i prune done st :
  evaluated_below i st ->
  evaluated_below (S i) (snd (branch token expression i prune done st)).
Proof.
  intros H.
  assert (evaluated_below (S i) st) as Hnext
      by (eapply evaluated_below_mono; [|exact H]; lia).
  unfold branch.
  destruct (token =? "else"); [exact Hnext|].
  destruct ((token =? "elseif") || (token =? "elif")); [|exact Hnext].
  pose proof (evaluated_below_evalExpression expression i st H) as He.
  now destruct (evalExpression expression i st) as [[exp|e|] st2].
Qed.

Lemma parseIf_loop_evaluated fuel start ignore i prune done remove st :
  evaluated_below i st ->
  StronglySorted lt
    (evaluations
       (trace (snd (parseIf_loop lines fuel start ignore i prune done
                                 remove st)))) /\
  forall end_ removed,
    fst (parseIf_loop lines fuel start ignore i prune done remove st)
    = Return (end_, removed) ->
    evaluated_below (S end_)
      (snd (parseIf_loop lines fuel start ignore i prune done remove st)).
Proof.
  by_cases (fun (fuel start : nat) (ignore : bool) (i : nat)
                (prune done : bool) (remove : list nat) (st : state)
                (r : outcome (nat * list nat) * state) =>
              evaluated_below i st ->
              StronglySorted lt (evaluations (trace (snd r))) /\
              forall end_ removed,
                fst r = Return (end_, removed) ->
                evaluated_below (S end_) (snd r));
    match goal with
    | H : evaluated_below ?i ?st |- _ =>
        try match goal with
            | _ : context [note (Scan ?s i ?ig ?pr ?dn) st] |- _ =>
                pose proof (evaluated_below_note i s i ig pr dn st H) as Hn
            | |- context [note (Scan ?s i ?ig ?pr ?dn) st] =>
                pose proof (evaluated_below_note i s i ig pr dn st H) as Hn
            end
    end;
    try match goal with
        | He : evalExpression ?e ?l ?s0 = (_, ?s) |- _ =>
            pose proof (evaluated_below_evalExpression e l s0 Hn) as Hs;
            rewrite He in Hs; cbn [snd] in Hs
        | He : branch ?t ?e ?l ?p ?d ?s0 = (_, ?s) |- _ =>
            pose proof (evaluated_below_branch t e l p d s0 Hn) as Hs;
            rewrite He in Hs; cbn [snd] in Hs
        end;
    cbn [fst snd] in *;
    try match goal with
        | Hc : catch _ ?k ?r1 = (_, ?s),
          IH : evaluated_below _ _ -> _ /\ _ |- _ =>
            destruct (IH Hn) as [Hsorted Hbound]; clear IH;
            destruct r1 as [[[n1 l1]|e1|] s1];
            cbn [catch fst snd] in Hc, Hsorted, Hbound;
            inversion Hc; subst;
            try (specialize (Hbound _ _ eq_refl))
        end;
    try match goal with
        | IH : evaluated_below (S _) _ -> ?G |- ?G =>
            apply IH;
            first [ assumption
                  | apply evaluated_below_warn; assumption
                  | eapply evaluated_below_mono; [|eassumption]; lia ]
        end;
    try solve
        [ split;
          [ match goal with
            | H : evaluated_below _ ?s
              |- StronglySorted _ (evaluations (trace ?s)) => apply H
            end
          | intros end_ removed Heq;
            first [ discriminate Heq
                  | inversion Heq; subst;
                    eapply evaluated_below_mono; [|eassumption]; lia ] ]
        | split; [assumption|discriminate] ].
Qed.

Lemma parseIf_evaluated start ignore st :
  evaluated_below start st ->
  StronglySorted lt
    (evaluations (trace (snd (parseIf lines start ignore st)))) /\
  forall end_ removed,
    fst (parseIf lines start ignore st) = Return (end_, removed) ->
    evaluated_below (S end_) (snd (parseIf lines start ignore st)).
Proof.
  intros H. unfold parseIf, parseIf_fuel. rewrite snd_catch.
  destruct (parseIf_loop_evaluated (enough lines) start ignore start false
              false [] st H) as [Hs Hb].
  split; [exact Hs|].
  intros end_ removed Hr. apply (Hb end_ removed).
  destruct (parseIf_loop _ _ _ _ _ _ _ _ _) as [[a|e|] st']; cbn in *;
    congruence.
Qed.

Lemma format_loop_evaluated fuel i remove st :
  evaluated_below i st ->
  StronglySorted lt
    (evaluations (trace (snd (format_loop lines fuel i remove st)))).
Proof.
  revert i remove st.
  induction fuel as [|fuel IH]; intros i remove st H; [apply H|].
  cbn [format_loop].
  assert (evaluated_below (S i) st) as Hnext
      by (eapply evaluated_below_mono; [|exact H]; lia).
  destruct (nth_error lines i) as [line0|]; [|apply H].
  destruct (getToken settings line0) as [[[[token0 ?] ?] ?]|];
    [|now apply IH].
  destruct (token0 =? "if"); [|now apply IH].
  destruct (parseIf_evaluated i false st H) as [Hs Hb].
  destruct (parseIf lines i false st) as [[[end_ removed]|e|] st'];
    cbn [fst snd] in *; try exact Hs.
  apply IH. now apply (Hb end_ removed).
Qed.

(** ** A line is scanned once *)

Lemma scans_of_app j evs1 evs2 :
  scans_of j (evs1 ++ evs2) = scans_of j evs1 ++ scans_of j evs2.
Proof. apply filter_app. Qed.

Lemma scans_of_evalExpression j expression line st :
  scans_of j (trace (snd (evalExpression expression line st)))
  = scans_of j (trace st).
Proof.
  assert (Ht : trace (snd (evalExpression expression line st))
               = trace st ++ [Eval line expression]).
  { unfold evalExpression.
    destruct (newFunction (body_of expression)) as [msg|fn]; [reflexivity|].
    now destruct (fn _) as [[truthy|[msg| |repr]] w']. }
  rewrite Ht, scans_of_app. cbn. apply app_nil_r.
Qed.

Lemma scans_of_branch j token expression i prune done st :
  scans_of j (trace (snd (branch token expression i prune done st)))
  = scans_of j (trace st).
Proof.
  unfold branch.
  destruct (token =? "else"); [reflexivity|].
  destruct ((token =? "elseif") || (token =? "elif")); [|reflexivity].
  pose proof (scans_of_evalExpression j expression i st) as H.
  now destruct (evalExpression expression i st) as [[exp|e|] st2].
Qed.

Lemma scanned_same st st' bound :
  (forall j, scans_of j (trace st') = scans_of j (trace st)) ->
  scanned_once lines st /\ scanned_through bound st ->
  scanned_once lines st' /\ scanned_through bound st'.
Proof.
  intros Hsame [Ho Ht]. split.
  - intros j Hj. rewrite Hsame. now apply Ho.
  - intros j Hj. rewrite Hsame in Hj. now apply Ht.
Qed.

(** One more iteration, at index [i]. *)
Lemma scanned_step start i ignore prune done st :
  frame_entry lines start i st ->
  scanned_once lines st ->
  scanned_once lines (note (Scan start i ignore prune done) st) /\
  scanned_through i (note (Scan start i ignore prune done) st).
Proof.
  intros He Ho. split.
  - intros j Hj. cbn [note trace]. rewrite scans_of_app, length_app.
    cbn [scans_of filter]. destruct (Nat.eqb_spec i j) as [->|Hne].
    + destruct (scans_of j (trace st)) as [|ev evs] eqn:Hs; [cbn; lia|].
      destruct (He j) as [Hlt|(_ & _ & Hif)];
        [rewrite Hs; discriminate|lia|now elim Hj].
    + cbn. rewrite Nat.add_0_r. now apply Ho.
  - intros j. cbn [note trace]. rewrite scans_of_app.
    cbn [scans_of filter]. destruct (Nat.eqb_spec i j) as [->|Hne]; [lia|].
    rewrite app_nil_r. intros Hs.
    destruct (He j Hs) as [Hlt|(-> & _)]; lia.
Qed.

Lemma frame_entry_next start bound st :
  scanned_through bound st -> frame_entry lines start (S bound) st.
Proof. intros Ht j Hj. left. apply Ht in Hj. lia. Qed.

Lemma frame_entry_nested i st :
  scanned_through i st -> is_if lines i -> frame_entry lines i i st.
Proof.
  intros Ht Hif j Hj. apply Ht in Hj.
  destruct (Nat.eq_dec j i) as [->|Hne]; [right; auto|left; lia].
Qed.

Lemma scanned_through_mono bound bound' st :
  bound <= bound' -> scanned_through bound st -> scanned_through bound' st.
Proof. intros Hle Ht j Hj. apply Ht in Hj. lia. Qed.

Lemma parseIf_loop_scanned_once fuel start ignore i prune done remove st :
  frame_entry lines start i st ->
  scanned_once lines st ->
  scanned_once lines
    (snd (parseIf_loop lines fuel start ignore i prune done remove st)) /\
  forall end_ removed,
    fst (parseIf_loop lines fuel start ignore i prune done remove st)
    = Return (end_, removed) ->
    scanned_through end_
      (snd (parseIf_loop lines fuel start ignore i prune done remove st)).
Proof.
  by_cases (fun (fuel start : nat) (ignore : bool) (i : nat)
                (prune done : bool) (remove : list nat) (st : state)
                (r : outcome (nat * list nat) * state) =>
              frame_entry lines start i st ->
              scanned_once lines st ->
              scanned_once lines (snd r) /\
              forall end_ removed,
                fst r = Return (end_, removed) ->
                scanned_through end_ (snd r));
    try match goal with
        | He : frame_entry _ ?start ?i ?st, Ho : scanned_once _ ?st |- _ =>
            match goal with
            | _ : context [note (Scan start i ?ig ?pr ?dn) st] |- _ =>
                pose proof (scanned_step start i ig pr dn st He Ho) as Hn
            | |- context [note (Scan start i ?ig ?pr ?dn) st] =>
                pose proof (scanned_step start i ig pr dn st He Ho) as Hn
            end
        end;
    try match goal with
        | He : evalExpression ?e ?l ?s0 = (_, ?s) |- _ =>
            pose proof (scanned_same s0 s _
                          (fun j => eq_trans
                             (f_equal (fun r => scans_of j (trace (snd r)))
                                      (eq_sym He))
                             (scans_of_evalExpression j e l s0)) Hn) as Hs
        | He : branch ?t ?e ?l ?p ?d ?s0 = (_, ?s) |- _ =>
            pose proof (scanned_same s0 s _
                          (fun j => eq_trans
                             (f_equal (fun r => scans_of j (trace (snd r)))
                                      (eq_sym He))
                             (scans_of_branch j t e l p d s0)) Hn) as Hs
        end;
    cbn [fst snd] in *;
    try match goal with
        | Hc : catch _ ?k ?r1 = (_, ?s),
          IH : frame_entry _ ?k ?k _ -> _ -> _ /\ _,
          Hl : nth_error lines ?k = Some _,
          Ht : getToken settings _ = Some ("if", _, _, _) |- _ =>
            assert (Hif : is_if lines k) by (repeat eexists; eassumption);
            destruct (IH (frame_entry_nested k _ (proj2 Hn) Hif) (proj1 Hn))
              as [Hso Hst]; clear IH;
            destruct r1 as [[[n1 l1]|e1|] s1];
            cbn [catch fst snd] in Hc, Hso, Hst;
            inversion Hc; subst;
            try (specialize (Hst _ _ eq_refl))
        end;
    try match goal with
        | IH : frame_entry _ _ (S _) ?s -> scanned_once _ ?s -> ?G |- ?G =>
            apply IH;
            [ apply frame_entry_next;
              first [ exact (proj2 Hs) | exact (proj2 Hn) | exact Hst ]
            | first [ exact (proj1 Hs) | exact (proj1 Hn) | exact Hso ] ]
        end;
    try solve
        [ split;
          [ first [ exact (proj1 Hs) | exact (proj1 Hn) | assumption ]
          | intros end_ removed Heq;
            first [ discriminate Heq
                  | inversion Heq; subst; exact (proj2 Hn) ] ] ].
Qed.

Lemma parseIf_scanned_once start ignore st :
  frame_entry lines start start st ->
  scanned_once lines st ->
  scanned_once lines (snd (parseIf lines start ignore st)) /\
  forall end_ removed,
    fst (parseIf lines start ignore st) = Return (end_, removed) ->
    scanned_through end_ (snd (parseIf lines start ignore st)).
Proof.
  intros He Ho. unfold parseIf, parseIf_fuel. rewrite snd_catch.
  destruct (parseIf_loop_scanned_once (enough lines) start ignore start false
              false [] st He Ho) as [Hs Hb].
  split; [exact Hs|].
  intros end_ removed Hr. apply (Hb end_ removed).
  destruct (parseIf_loop _ _ _ _ _ _ _ _ _) as [[a|e|] st']; cbn in *;
    congruence.
Qed.

Lemma format_loop_scanned_once fuel i remove st :
  (forall j, scans_of j (trace st) <> [] -> j < i) ->
  scanned_once lines st ->
  scanned_once lines (snd (format_loop lines fuel i remove st)).
Proof.
  revert i remove st.
  induction fuel as [|fuel IH]; intros i remove st Hb Ho; [exact Ho|].
  cbn [format_loop].
  assert (forall j, scans_of j (trace st) <> [] -> j < S i) as Hnext
      by (intros j Hj; apply Hb in Hj; lia).
  destruct (nth_error lines i) as [line0|]; [|exact Ho].
  destruct (getToken settings line0) as [[[[token0 ?] ?] ?]|];
    [|now apply IH].
  destruct (token0 =? "if"); [|now apply IH].
  destruct (parseIf_scanned_once i false st) as [Hs Ht];
    [intros j Hj; left; now apply Hb|exact Ho|].
  destruct (parseIf lines i false st) as [[[end_ removed]|e|] st'];
    cbn [fst snd] in *; try exact Hs.
  apply IH; [|exact Hs].
  intros j Hj. apply (Ht end_ removed eq_refl) in Hj. lia.
Qed.

(** The diagnostics for line [i] are those of the iterations at index
    [i]. *)
Lemma filter_emitted i evs :
  filter (fun msg => (line_of msg =? i + 1)%nat)
         (flat_map (emitted lines) evs)
  = flat_map (emitted lines) (scans_of i evs).
Proof.
  induction evs as [|ev evs IH]; [reflexivity|].
  cbn [flat_map scans_of filter]. rewrite filter_app. fold (scans_of i evs).
  rewrite IH. destruct ev as [s j ig pr dn|l e]; [|reflexivity].
  assert (Hone : filter (fun msg => (line_of msg =? i + 1)%nat)
                        (emitted lines (Scan s j ig pr dn))
                 = if (j =? i)%nat then emitted lines (Scan s j ig pr dn)
                   else []).
  { cbn [emitted].
    destruct (nth_error lines j) as [line|]; [|now destruct (j =? i)%nat].
    destruct (getToken settings line) as [[[[t e] c] l]|];
      [|now destruct (j =? i)%nat].
    destruct (is_warning t && negb pr && negb ig);
      [|now destruct (j =? i)%nat].
    cbn. unfold line_of, diagnostic. cbn.
    destruct (Nat.eqb_spec (j + 1) (i + 1)), (Nat.eqb_spec j i);
      try lia; reflexivity. }
  rewrite Hone. now destruct (j =? i)%nat.
Qed.

Lemma scans_of_once st start i ignore prune done :
  scanned_once lines st ->
  ~ is_if lines i ->
  In (Scan start i ignore prune done) (trace st) ->
  scans_of i (trace st) = [Scan start i ignore prune done].
Proof.
  intros Ho Hi Hin. specialize (Ho i Hi).
  assert (In (Scan start i ignore prune done) (scans_of i (trace st))) as H
      by (apply filter_In; split; [exact Hin|apply Nat.eqb_refl]).
  destruct (scans_of i (trace st)) as [|ev [|ev' evs]]; cbn in *;
    [contradiction| |lia].
  destruct H as [->|[]]. reflexivity.
Qed.

End Frames.

(** ** The whole file *)

Lemma suppressed_not_stuck lines st : fst (suppressed lines st) <> Stuck.
Proof. apply format_loop_not_stuck. lia. Qed.

Lemma format_not_stuck data st : fst (format data st) <> Stuck.
Proof.
  unfold format.
  pose proof (suppressed_not_stuck (Str.split Str.LF data) st) as H.
  destruct (suppressed _ st) as [[remove|e|] st']; cbn in *; congruence.
Qed.

Lemma snd_format data st :
  snd (format data st) = snd (suppressed (Str.split Str.LF data) st).
Proof.
  unfold format. now destruct (suppressed _ st) as [[remove|e|] st'].
Qed.

Lemma snd_onLoad path data w :
  snd (onLoad path data w)
  = snd (suppressed (Str.split Str.LF data) (mkState w [] [])).
Proof.
  unfold onLoad. rewrite <- snd_format. now destruct (format data _).
Qed.

(** [onLoad] always gives an answer: the fuel of the loops is never
    exhausted. *)
Lemma onLoad_not_diverged path data w : fst (onLoad path data w) <> Diverged.
Proof.
  unfold onLoad.
  pose proof (format_not_stuck data (mkState w [] [])) as H.
  destruct (format data _) as [[out|e|] st]; cbn in *; try congruence.
  destruct (err_location e); discriminate.
Qed.

(** C7. An [error] or [err] directive that the block parser reaches in a
    frame that is neither pruning nor ignored makes [onLoad] reject the
    file: the answer carries exactly one error, whose text is the text of
    the directive and whose location is the directive's line (counted from
    one) with the column and length of the directive, and it carries no
    contents. *)
Theorem error_directive_rejects_file
        path data w start i done line token expression column length :
  In (Scan start i false false done) (trace (snd (onLoad path data w))) ->
  nth_error (Str.split Str.LF data) i = Some line ->
  getToken settings line = Some (token, expression, column, length) ->
  token = "error" \/ token = "err" ->
  fst (onLoad path data w)
  = Rejected (reported path (snd (onLoad path data w)))
             [mkMessage expression
                (mkLocation (Some path) (i + 1) line
                            (Some column) (Some length))].
Proof.
  intros Hin Hl Ht He%is_error_spec.
  rewrite snd_onLoad in Hin. unfold suppressed in Hin.
  pose proof (format_loop_raises _ _ _ _ _ _ _ _ _ _ _ _ _ Hin Hl Ht He) as H.
  destruct H as [[]|H].
  unfold onLoad, format, suppressed.
  destruct (format_loop _ _ _ _ _) as [[remove|e|] st]; cbn [fst] in H;
    try discriminate.
  inversion H; subst. reflexivity.
Qed.

Lemma filter_reported path i st :
  filter (fun msg => (line_of msg =? i + 1)%nat) (reported path st)
  = map (fun msg => mkMessage (text msg) (with_file path (location msg)))
        (filter (fun msg => (line_of msg =? i + 1)%nat) (warnings st)).
Proof.
  unfold reported. induction (warnings st) as [|msg msgs IH]; [reflexivity|].
  cbn [map filter]. rewrite IH.
  change (line_of (mkMessage (text msg) (with_file path (location msg))))
    with (line_of msg).
  now destruct (line_of msg =? i + 1)%nat.
Qed.

(** C8. A [warning] or [warn] directive that the block parser scans makes
    [onLoad] report exactly one diagnostic for the directive's line when
    the frame is neither pruning nor ignored there (its text is the text of
    the directive, its line is the directive's line counted from one, with
    the directive's column and length) and no diagnostic for that line
    otherwise, whether [onLoad] then returns contents or rejects the file.
    In both cases the iteration leaves [prune] and [done] unchanged, adds
    only the directive's own index to the suppression list and goes on at
    the next line. *)
Theorem warning_directive_diagnostics
        path data w fuel start ignore i prune done remove st
        line token expression column length :
  nth_error (Str.split Str.LF data) i = Some line ->
  getToken settings line = Some (token, expression, column, length) ->
  token = "warning" \/ token = "warn" ->
  In (Scan start i ignore prune done) (trace (snd (onLoad path data w))) ->
  filter (fun msg => (line_of msg =? i + 1)%nat)
         (reported path (snd (onLoad path data w)))
  = (if negb prune && negb ignore
     then [mkMessage expression
             (mkLocation (Some path) (i + 1) line (Some column)
                         (Some length))]
     else [])
  /\ parseIf_loop (Str.split Str.LF data) (S fuel) start ignore i prune done
                  remove st
     = parseIf_loop (Str.split Str.LF data) fuel start ignore (S i) prune
         done
         (push_if (prune || ignore) remove i ++ [i])
         (if negb prune && negb ignore
          then warn (mkMessage expression
                       (mkLocation None (i + 1) line (Some column)
                                   (Some length)))
                    (note (Scan start i ignore prune done) st)
          else note (Scan start i ignore prune done) st).
Proof.
  intros Hl Ht Htok Hin. split; [|now apply warning_step with (token := token)].
  rewrite filter_reported. rewrite snd_onLoad in *. unfold suppressed in *.
  destruct (format_loop_grows (Str.split Str.LF data)
              (S (List.length (Str.split Str.LF data))) 0 []
              (mkState w [] [])) as (evs & Htr & Hw).
  cbn [trace warnings app] in Htr, Hw.
  rewrite Hw, filter_emitted, <- Htr.
  rewrite (scans_of_once (Str.split Str.LF data) _ start i ignore prune done).
  - cbn [flat_map]. rewrite app_nil_r.
    rewrite (emitted_directive _ _ _ _ _ _ _ _ _ _ _ Hl Ht).
    apply is_warning_spec in Htok. rewrite Htok.
    now destruct prune, ignore.
  - apply format_loop_scanned_once.
    + intros j Hj. now elim Hj.
    + intros j _. cbn. lia.
  - intros (line' & e & c & l & Hl' & Ht').
    rewrite Hl in Hl'. inversion Hl'; subst line'.
    rewrite Ht in Ht'. inversion Ht'; subst.
    destruct Htok; discriminate.
  - exact Hin.
Qed.

(** C9, amended. When [onLoad] returns contents, a directive line is in
    the suppression list exactly when the block parser scanned it (it lies
    within an [if] block); such a line is rewritten in the output, and a
    directive line that was not scanned is copied unchanged. *)
Theorem scanned_directive_suppressed
        path data w contents diagnostics loader i line td :
  fst (onLoad path data w) = Loaded contents diagnostics loader ->
  nth_error (Str.split Str.LF data) i = Some line ->
  getToken settings line = Some td ->
  exists remove,
    suppressed (Str.split Str.LF data) (mkState w [] [])
    = (Return remove, snd (onLoad path data w)) /\
    (Str.includes remove i = true <-> scanned (snd (onLoad path data w)) i) /\
    nth_error (Str.split Str.LF contents) i
    = Some (if Str.includes remove i then
              match fillWithSpaces settings with
              | Some true => Str.spaces (String.length line)
              | _ => ("//" ++ line)%string
              end
            else line).
Proof.
  intros Hload Hl Ht.
  unfold onLoad in *.
  destruct (format data (mkState w [] [])) as [[out|e|] st'] eqn:Hf;
    cbn [fst snd] in *; try discriminate.
  2:{ destruct (err_location e); discriminate. }
  inversion Hload; subst contents. clear Hload.
  apply format_returns in Hf as (remove & Hsup & Hout).
  exists remove. split; [exact Hsup|]. split.
  - unfold Str.includes. rewrite existsb_exists. split.
    + intros (j & Hj & ->%Nat.eqb_eq).
      destruct (format_loop_removed _ _ _ _ _ _ _ _ Hsup Hj) as [[]|H].
      exact H.
    + intros (s & ig & pr & dn & Hin).
      destruct (format_loop_suppresses _ _ _ _ _ _ _ Hsup) as [_ Hev].
      destruct (Hev _ _ _ _ _ _ _ Hin Hl Ht) as [[]|Hi].
      exists i. split; [exact Hi|apply Nat.eqb_refl].
  - rewrite Hout. unfold Str.mapi. rewrite mapi_from_nth, Hl. reflexivity.
Qed.



(** C10. At an [error] or [err] directive of a frame that is pruning or
    ignored, nothing is thrown: the scan goes on at the next line with the
    frame's flags and the state as they were, the directive's index being
    pushed as for any line of an inactive branch (and once more, as for any
    directive). If the scan then returns, it returns the index of an
    [endif] further down, and the directive's index is in the returned
    suppression list. *)
Theorem inactive_error_directive_is_skipped
        lines fuel start ignore i prune done remove st
        line token expression column length :
  nth_error lines i = Some line ->
  getToken settings line = Some (token, expression, column, length) ->
  token = "error" \/ token = "err" ->
  prune || ignore = true ->
  parseIf_loop lines (S fuel) start ignore i prune done remove st
  = parseIf_loop lines fuel start ignore (S i) prune done
      ((remove ++ [i]) ++ [i]) (note (Scan start i ignore prune done) st)
  /\ forall end_ removed st',
       parseIf_loop lines (S fuel) start ignore i prune done remove st
       = (Return (end_, removed), st') ->
       i < end_ /\ In i removed /\
       exists text expression' column' length',
         nth_error lines end_ = Some text /\
         getToken settings text
         = Some ("endif", expression', column', length').
Proof.
  intros Hl Ht Htok Hinactive.
  assert (parseIf_loop lines (S fuel) start ignore i prune done remove st
          = parseIf_loop lines fuel start ignore (S i) prune done
              ((remove ++ [i]) ++ [i])
              (note (Scan start i ignore prune done) st)) as Heq.
  { rewrite (error_step lines fuel start ignore i prune done remove st
               line token expression column length Hl Ht Htok).
    cbv zeta. unfold push_if. rewrite Hinactive.
    now destruct prune, ignore. }
  split; [exact Heq|].
  intros end_ removed st' Hret. rewrite Heq in Hret.
  pose proof (parseIf_loop_end _ _ _ _ _ _ _ _ _ _ _ _ Hret) as Hend.
  pose proof (parseIf_loop_suppresses lines fuel start ignore (S i) prune done
                ((remove ++ [i]) ++ [i])
                (note (Scan start i ignore prune done) st)) as Hs.
  rewrite Hret in Hs. destruct (Hs _ _ eq_refl) as [Hincl _].
  split; [lia|]. split.
  - apply Hincl, in_or_app. right. now left.
  - now apply parseIf_loop_returns_at_endif in Hret.
Qed.

(** * Further properties of the plugin *)

Lemma includes_In remove i : Str.includes remove i = true <-> In i remove.
Proof.
  unfold Str.includes. rewrite existsb_exists. split.
  - now intros (j & Hj & ->%Nat.eqb_eq).
  - intros H. exists i. split; [exact H|apply Nat.eqb_refl].
Qed.

(** X1. When [onLoad] returns contents, a line that is no directive comes
    out as its branch decides: scanned in a frame that is pruning or
    ignored, it is rendered suppressed; scanned in a frame that is neither,
    it is copied unchanged; never scanned (outside every [if] block), it is
    copied unchanged as well. *)
Theorem content_line_follows_branch
        path data w contents diagnostics loader i line :
  fst (onLoad path data w) = Loaded contents diagnostics loader ->
  nth_error (Str.split Str.LF data) i = Some line ->
  getToken settings line = None ->
  (forall start ignore prune done,
      In (Scan start i ignore prune done) (trace (snd (onLoad path data w))) ->
      nth_error (Str.split Str.LF contents) i
      = Some (if prune || ignore then
                match fillWithSpaces settings with
                | Some true => Str.spaces (String.length line)
                | _ => ("//" ++ line)%string
                end
              else line)) /\
  (~ scanned (snd (onLoad path data w)) i ->
   nth_error (Str.split Str.LF contents) i = Some line).
Proof.
  intros Hload Hl Ht.
  unfold onLoad in *.
  destruct (format data (mkState w [] [])) as [[out|e|] st'] eqn:Hf;
    cbn [fst snd] in *; try discriminate.
  2:{ destruct (err_location e); discriminate. }
  inversion Hload; subst contents. clear Hload.
  apply format_returns in Hf as (remove & Hsup & Hout).
  assert (nth_error (Str.split Str.LF out) i = Some (render remove line i))
    as Hi.
  { rewrite Hout. unfold Str.mapi. now rewrite mapi_from_nth, Hl. }
  rewrite Hi. unfold render. split.
  - intros start ignore prune done Hin.
    destruct (format_loop_plain _ _ _ _ _ _ _ _ _ _ _ _ _ Hsup Hin Hl Ht)
      as [[]|[_ Hset]].
    unfold settled in Hset. destruct (prune || ignore).
    + apply includes_In in Hset. now rewrite Hset.
    + destruct (Str.includes remove i) eqn:Hinc; [|reflexivity].
      apply includes_In in Hinc. destruct (Hset Hinc).
  - intros Hns. destruct (Str.includes remove i) eqn:Hinc; [|reflexivity].
    apply includes_In in Hinc.
    destruct (format_loop_removed _ _ _ _ _ _ _ _ Hsup Hinc) as [[]|Hs].
    now elim Hns.
Qed.



(** X3. Every diagnostic that [onLoad] reports comes from a [warning] or
    [warn] directive of the file that was scanned in a frame neither
    pruning nor ignored: it has the text of that directive, the name of the
    file, and the line, line text, column and length of the directive. *)
Theorem reported_warning_has_directive path data w msg :
  In msg (reported path (snd (onLoad path data w))) ->
  exists start i done line token column length,
    In (Scan start i false false done) (trace (snd (onLoad path data w))) /\
    nth_error (Str.split Str.LF data) i = Some line /\
    getToken settings line = Some (token, text msg, column, length) /\
    (token = "warning" \/ token = "warn") /\
    location msg
    = mkLocation (Some path) (i + 1) line (Some column) (Some length).
Proof.
  rewrite snd_onLoad. unfold reported, suppressed.
  set (lines := Str.split Str.LF data).
  destruct (format_loop_grows lines (S (List.length lines)) 0 []
              (mkState w [] [])) as (evs & Htr & Hw).
  rewrite Hw, Htr. cbn [warnings trace app].
  intros (m & <- & Hm)%in_map_iff.
  apply in_flat_map in Hm as (ev & Hev & Hm).
  destruct ev as [start i ignore prune done|]; [|destruct Hm].
  cbn in Hm.
  destruct (nth_error lines i) as [line|] eqn:Hl; [|destruct Hm].
  destruct (getToken settings line) as [[[[token expression] column] length]|]
    eqn:Ht; [|destruct Hm].
  destruct (is_warning token) eqn:Hwarn; [|destruct Hm].
  destruct prune; [destruct Hm|]. destruct ignore; [destruct Hm|].
  destruct Hm as [<-|[]].
  exists start, i, done, line, token, column, length.
  repeat split; auto. now apply is_warning_spec.
Qed.

(** X4. First match wins, and an ignored frame stays ignored. From a line
    of a frame that is ignored, or that is pruning after a branch has
    matched, the block parser passes nothing to [warn] whatever directives
    follow, and when it returns every line up to the [endif] of the frame
    is in the suppression list. *)
Theorem inactive_frame_is_silent_and_suppressed
        lines fuel start ignore i prune done remove st :
  ignore = true \/ (prune = true /\ done = true /\ start < i) ->
  warnings (snd (parseIf_loop lines fuel start ignore i prune done remove st))
  = warnings st /\
  forall end_ removed st',
    parseIf_loop lines fuel start ignore i prune done remove st
    = (Return (end_, removed), st') ->
    forall j, i <= j <= end_ -> In j removed.
Proof.
  intros Hpre. split.
  - now apply inactive_loop_no_warnings.
  - intros end_ removed st' Hret.
    now apply inactive_loop_suppresses_all with (1 := Hret).
Qed.

(** X5. An [else] directive of a frame that is not ignored makes the frame
    pruning exactly when a branch has matched before. After a match the
    rest of the frame is therefore suppressed up to its [endif] and emits
    no diagnostic; without a match [done] stays unset, so that the lines
    after the [else] are scanned in an active frame. *)
Theorem else_branch_complements_match
        lines fuel start i prune done remove st
        line expression column length :
  nth_error lines i = Some line ->
  getToken settings line = Some ("else", expression, column, length) ->
  start <= i ->
  parseIf_loop lines (S fuel) start false i prune done remove st
  = parseIf_loop lines fuel start false (S i) done done
      (push_if (prune || false) remove i ++ [i])
      (note (Scan start i false prune done) st) /\
  (done = true ->
   warnings (snd (parseIf_loop lines (S fuel) start false i prune done
                               remove st))
   = warnings st /\
   forall end_ removed st',
     parseIf_loop lines (S fuel) start false i prune done remove st
     = (Return (end_, removed), st') ->
     forall j, i <= j <= end_ -> In j removed).
Proof.
  intros Hl Ht Hlt.
  pose proof (else_step lines fuel start i prune done remove st line
                expression column length Hl Ht) as Hstep.
  split; [exact Hstep|].
  intros ->. rewrite Hstep.
  assert (false = true \/ (true = true /\ true = true /\ start < S i)) as Hpre
    by (right; repeat split; lia).
  split.
  - now rewrite (inactive_loop_no_warnings lines _ _ _ _ _ _ _ _ Hpre).
  - intros end_ removed st' Hret j Hj.
    destruct (Nat.eq_dec j i) as [->|Hne].
    + pose proof (parseIf_loop_suppresses lines fuel start false (S i)
                    true true (push_if (prune || false) remove i ++ [i])
                    (note (Scan start i false prune true) st)) as Hs.
      rewrite Hret in Hs. destruct (Hs _ _ eq_refl) as [Hincl _].
      apply Hincl, in_pushed.
    + apply (inactive_loop_suppresses_all lines _ _ _ _ _ _ _ _ _ _ _
               Hret Hpre). lia.
Qed.

Lemma join_split sep s : Str.join sep (Str.split sep s) = s.
Proof.
  unfold Str.join. induction s as [|c s IH]; [reflexivity|].
  cbn [Str.split].
  pose proof (split_not_nil sep s) as Hne.
  destruct (Ascii.eqb_spec c sep) as [->|Hc].
  - destruct (Str.split sep s) as [|piece pieces]; [congruence|].
    change (String.concat (String sep "") ("" :: piece :: pieces))
      with (String sep (String.concat (String sep "") (piece :: pieces))).
    now rewrite IH.
  - destruct (Str.split sep s) as [|piece pieces]; [congruence|].
    rewrite <- IH. now destruct pieces.
Qed.

Lemma mapi_from_render_nil lines k :
  Str.mapi_from (render []) k lines = lines.
Proof.
  revert k. induction lines as [|line lines IH]; intros k; [reflexivity|].
  cbn. now rewrite IH.
Qed.

(** X6. A text in which no line is an [if] directive goes through [format]
    unchanged, and nothing is evaluated or reported on the way: [onLoad]
    returns the text as it was read, with no diagnostics. *)
Theorem text_without_if_is_unchanged path data w :
  (forall line,
      In line (Str.split Str.LF data) ->
      forall expression column length,
        getToken settings line <> Some ("if", expression, column, length)) ->
  format data (mkState w [] []) = (Return data, mkState w [] []) /\
  exists loader,
    onLoad path data w = (Loaded data [] loader, mkState w [] []).
Proof.
  intros Hno.
  assert (format data (mkState w [] []) = (Return data, mkState w [] []))
    as Hf.
  { unfold format, suppressed.
    rewrite (format_loop_without_if _ _ _ _ _ Hno) by lia.
    unfold Str.mapi. now rewrite mapi_from_render_nil, join_split. }
  split; [exact Hf|].
  unfold onLoad. rewrite Hf. eexists. reflexivity.
Qed.

(** X7. When [parseIf] returns, the index it returns is that of an [endif]
    directive at or after the line it started from, that index is in the
    suppression list it returns, and the list holds nothing outside the
    lines from [start] to that [endif]. A frame with no [endif] directive
    from [start] on therefore never returns. *)
Theorem parseIf_returns_at_endif lines start ignore st end_ removed st' :
  parseIf lines start ignore st = (Return (end_, removed), st') ->
  start <= end_ < List.length lines /\
  (exists line expression column length,
      nth_error lines end_ = Some line /\
      getToken settings line = Some ("endif", expression, column, length)) /\
  In end_ removed /\
  forall j, In j removed -> start <= j <= end_.
Proof.
  intros Hp. split; [now apply parseIf_end in Hp|].
  split; [|split].
  - unfold parseIf, parseIf_fuel in Hp. apply catch_Return in Hp.
    now apply parseIf_loop_returns_at_endif in Hp.
  - unfold parseIf, parseIf_fuel in Hp. apply catch_Return in Hp.
    now apply parseIf_loop_end_removed in Hp.
  - intros j Hj. now apply (parseIf_removed_range lines _ _ _ _ _ _ _ Hp).
Qed.


(** ** The built-in regular expressions *)

Lemma star_greedy_sound {A} cls s (k : string -> option A) x :
  star_greedy cls s k = Some x -> exists rest, k rest = Some x.
Proof.
  induction s as [|c s IH]; cbn; [eauto|].
  destruct (cls c); [|eauto].
  destruct (star_greedy cls s k) as [y|]; [|eauto].
  intros H. inversion H; subst. now apply IH.
Qed.

Lemma star_lazy_sound {A} cls s (k : string -> option A) x :
  star_lazy cls s k = Some x -> exists rest, k rest = Some x.
Proof.
  induction s as [|c s IH]; cbn.
  - destruct (k "") eqn:Hk; [|discriminate].
    intros H. inversion H; subst. eauto.
  - destruct (k (String c s)) eqn:Hk.
    + intros H. inversion H; subst. eauto.
    + destruct (cls c); [exact IH|discriminate].
Qed.

(** A match of [r] followed by [k] is a match of [k] on some rest. *)
Lemma run_sound {A} r :
  forall s caps (k : string -> captures -> option A) x,
    run r s caps k = Some x -> exists rest caps', k rest caps' = Some x.
Proof.
  induction r as [c|cls|greedy cls|name r IH|r IH|r1 IH1 r2 IH2|];
    intros s caps k x; cbn [run].
  - destruct s as [|c' s']; [discriminate|].
    destruct (Ascii.eqb c' c); [eauto|discriminate].
  - destruct s as [|c' s']; [discriminate|].
    destruct (cls c'); [eauto|discriminate].
  - destruct greedy.
    + intros (rest & H)%star_greedy_sound. eauto.
    + intros (rest & H)%star_lazy_sound. eauto.
  - intros (rest & caps' & H)%IH. eauto.
  - destruct (run r s caps k) as [y|] eqn:Hr; [|eauto].
    intros H. inversion H; subst. eapply IH; eauto.
  - intros (rest & caps' & H)%IH1. eapply IH2; eauto.
  - destruct s; [eauto|discriminate].
Qed.

(** A sequence that ends in [$] only matches up to the end of the input. *)
Lemma run_seq_to_end {A} rs :
  forall s caps (k : string -> captures -> option A) x,
    run (seq rs EndAnchor) s caps k = Some x ->
    exists caps', k "" caps' = Some x.
Proof.
  induction rs as [|r rs IH]; intros s caps k x; cbn [seq run].
  - destruct s; [eauto|discriminate].
  - intros (rest & caps' & H)%run_sound. eapply IH; eauto.
Qed.

Lemma run_slashes {A} r s caps (k : string -> captures -> option A) x :
  run (Seq (Lit "/"%char) (Seq (Lit "/"%char) r)) s caps k = Some x ->
  exists rest, s = ("//" ++ rest)%string /\ run r rest caps k = Some x.
Proof.
  cbn [run].
  destruct s as [|c1 s]; [discriminate|].
  destruct (Ascii.eqb_spec c1 "/"%char) as [->|]; [|discriminate].
  destruct s as [|c2 s]; [discriminate|].
  destruct (Ascii.eqb_spec c2 "/"%char) as [->|]; [|discriminate].
  intros H. exists s. split; [reflexivity|exact H].
Qed.

Lemma search_from_span r :
  (forall s caps k (x : string * captures),
      run r s caps k = Some x ->
      exists rest caps', s = ("//" ++ rest)%string /\ k "" caps' = Some x) ->
  forall s i m,
    search_from r s i = Some m ->
    exists before after,
      s = (before ++ "//" ++ after)%string /\
      index m = i + String.length before /\
      matched_length m = 2 + String.length after.
Proof.
  intros Hr. induction s as [|c s IH]; intros i m; cbn [search_from].
  - destruct (run r "" [] _) as [[rest caps]|] eqn:Hrun; [|discriminate].
    apply Hr in Hrun as (rest' & caps' & He & _). discriminate.
  - destruct (run r (String c s) [] _) as [[rest caps]|] eqn:Hrun.
    + apply Hr in Hrun as (rest' & caps' & He & Hk).
      inversion Hk; subst rest caps'. intros H. inversion H; subst m.
      exists "", rest'. cbn in He. inversion He; subst c s. cbn.
      split; [reflexivity|]. split; [lia|reflexivity].
    + intros (before & after & -> & Hi & Hm)%IH.
      exists (String c before), after. cbn.
      split; [reflexivity|]. split; [lia|exact Hm].
Qed.

Lemma length_append (s1 s2 : string) :
  String.length (s1 ++ s2) = String.length s1 + String.length s2.
Proof. induction s1 as [|c s1 IH]; cbn; [reflexivity|now rewrite IH]. Qed.

Lemma builtin_span r line td :
  r = regExps.double \/ r = regExps.triple ->
  getToken_with r line = Some td ->
  exists before after,
    line = (before ++ "//" ++ after)%string /\
    snd (fst td) = String.length before /\
    snd td = 2 + String.length after.
Proof.
  intros Hr. unfold getToken_with, exec.
  destruct (search_from r line 0) as [m|] eqn:Hs; [|discriminate].
  intros H. inversion H; subst td. cbn [fst snd].
  apply search_from_span in Hs; [exact Hs|].
  clear - Hr. intros s caps k x.
  destruct Hr as [-> | ->].
  - intros (rest & -> & H)%run_slashes.
    apply (run_seq_to_end [_; _; _; _; _]) in H as (caps' & H). eauto.
  - intros (rest & -> & H)%run_slashes.
    apply (run_seq_to_end [_; _; _; _; _; _]) in H as (caps' & H). eauto.
Qed.

(** X9. With a built-in regular expression, the match that [getToken]
    reports starts at a [//] of the line and reaches the end of the line:
    the line is [before ++ "//" ++ after] with [column] the length of
    [before] and [length] two more than the length of [after], so that
    [column + length] is the length of the line. *)
Theorem getToken_spans_comment_to_end_of_line
        line token expression column length :
  regExp settings = None ->
  getToken settings line = Some (token, expression, column, length) ->
  (exists before after,
      line = (before ++ "//" ++ after)%string /\
      column = String.length before /\
      length = 2 + String.length after) /\
  column + length = String.length line.
Proof.
  intros Hre. unfold getToken. rewrite Hre.
  assert (H : exists r, (r = regExps.double \/ r = regExps.triple) /\
                        match requireTripleSlash settings with
                        | Some false => getToken_with regExps.double line
                        | _ => getToken_with regExps.triple line
                        end = getToken_with r line).
  { destruct (requireTripleSlash settings) as [[|]|]; eauto. }
  destruct H as (r & Hr & ->). intros Ht.
  destruct (builtin_span r line _ Hr Ht) as (before & after & -> & Hc & Hl).
  cbn [fst snd] in Hc, Hl. subst column length.
  split; [eauto|].
  rewrite length_append. cbn. lia.
Qed.

(** ** No [if] directive is left in what [onLoad] returns *)

Lemma onLoad_loaded path data w contents diagnostics loader :
  fst (onLoad path data w) = Loaded contents diagnostics loader ->
  exists remove st',
    suppressed (Str.split Str.LF data) (mkState w [] []) = (Return remove, st') /\
    Str.split Str.LF contents
    = Str.mapi (render remove) (Str.split Str.LF data) /\
    loader = (let ext := last (Str.split "."%char path) "" in
              if existsb (String.eqb ext) loaders then ext else "js").
Proof.
  unfold onLoad.
  destruct (format data (mkState w [] [])) as [[out|e|] st'] eqn:Hf;
    cbn [fst]; try discriminate.
  2:{ destruct (err_location e); discriminate. }
  intros H. inversion H; subst.
  apply format_returns in Hf as (remove & Hsup & Hout). eauto.
Qed.

(** X10. When [onLoad] returns contents, every line of the input that is an
    [if] directive is rewritten in the output, whether or not its branch
    is kept: blanked when [fillWithSpaces] is set, put after [//]
    otherwise. *)
Theorem if_directive_is_suppressed
        path data w contents diagnostics loader j line expression column
        length :
  fst (onLoad path data w) = Loaded contents diagnostics loader ->
  nth_error (Str.split Str.LF data) j = Some line ->
  getToken settings line = Some ("if", expression, column, length) ->
  nth_error (Str.split Str.LF contents) j
  = Some (match fillWithSpaces settings with
          | Some true => Str.spaces (String.length line)
          | _ => ("//" ++ line)%string
          end).
Proof.
  intros (remove & st' & Hsup & -> & _)%onLoad_loaded Hl Ht.
  unfold Str.mapi. rewrite mapi_from_nth, Hl. cbn [option_map].
  apply format_loop_covers in Hsup as [_ Hcov].
  assert (Hin : In j remove)
    by (apply (Hcov j line expression column length); [lia|assumption..]).
  apply includes_In in Hin. unfold render. rewrite Nat.add_0_l, Hin.
  reflexivity.
Qed.

Lemma spaces_app n before c after :
  Str.spaces n = (before ++ String c after)%string -> c = " "%char.
Proof.
  revert n. induction before as [|b before IH]; intros [|n]; cbn;
    try discriminate.
  - intros H. now inversion H.
  - intros H. inversion H. eauto.
Qed.

(** A blanked line is not a directive for the built-in expressions. *)
Lemma getToken_spaces n :
  regExp settings = None -> getToken settings (Str.spaces n) = None.
Proof.
  intros Hre. unfold getToken. rewrite Hre.
  assert (H : forall r, r = regExps.double \/ r = regExps.triple ->
                        getToken_with r (Str.spaces n) = None).
  { intros r Hr. destruct (getToken_with r (Str.spaces n)) as [td|] eqn:Ht;
      [|reflexivity].
    destruct (builtin_span r _ _ Hr Ht) as (before & after & He & _).
    apply spaces_app in He. discriminate. }
  destruct (requireTripleSlash settings) as [[|]|]; apply H; auto.
Qed.

Lemma format_without_if data st :
  (forall line,
      In line (Str.split Str.LF data) ->
      forall expression column length,
        getToken settings line <> Some ("if", expression, column, length)) ->
  format data st = (Return data, st).
Proof.
  intros Hno. unfold format, suppressed.
  rewrite (format_loop_without_if _ _ _ _ _ Hno) by lia.
  unfold Str.mapi. now rewrite mapi_from_render_nil, join_split.
Qed.

(** X11. With [fillWithSpaces] and a built-in regular expression, loading
    is idempotent: the contents that [onLoad] returns for a file hold no
    [if] directive, so that [onLoad] on these contents returns them
    unchanged, with the same loader, no diagnostics and no expression
    evaluated. *)
Theorem load_with_fillWithSpaces_is_idempotent
        path data w contents diagnostics loader :
  regExp settings = None ->
  fillWithSpaces settings = Some true ->
  fst (onLoad path data w) = Loaded contents diagnostics loader ->
  forall w',
    onLoad path contents w' = (Loaded contents [] loader, mkState w' [] []).
Proof.
  intros Hre Hfill (remove & st' & Hsup & Hout & ->)%onLoad_loaded w'.
  apply format_loop_covers in Hsup as [_ Hcov].
  unfold onLoad. rewrite format_without_if; [reflexivity|].
  rewrite Hout. unfold Str.mapi.
  intros line' (j & Hj)%In_nth_error e c l Ht.
  rewrite mapi_from_nth in Hj.
  destruct (nth_error (Str.split Str.LF data) j) as [line|] eqn:Hl;
    [|discriminate].
  cbn [option_map] in Hj. inversion Hj; subst line'. clear Hj.
  cbn [Nat.add] in Ht. unfold render in Ht.
  destruct (Str.includes remove j) eqn:Hin.
  - rewrite Hfill, getToken_spaces in Ht by assumption. discriminate.
  - apply (Hcov j line e c l) in Ht; [|lia|assumption].
    apply includes_In in Ht. congruence.
Qed.

(** X12. The diagnostics that [onLoad] reports, whether it returns contents
    or rejects the file, come in the order of the lines they point to: the
    line numbers increase strictly, so no line is reported twice. *)
Theorem diagnostics_in_line_order path data w :
  StronglySorted lt
    (map line_of (reported path (snd (onLoad path data w)))).
Proof.
  rewrite snd_onLoad. unfold reported, suppressed. rewrite map_map.
  erewrite map_ext; [apply format_loop_in_order|reflexivity].
  split; constructor.
Qed.

(** X13. A file with an [if] directive after which no line is an [endif]
    directive is never loaded: [onLoad] rejects it with one error. *)
Theorem unclosed_if_rejects_file
        path data w j line expression column length :
  nth_error (Str.split Str.LF data) j = Some line ->
  getToken settings line = Some ("if", expression, column, length) ->
  (forall k line' e c l,
      j < k ->
      nth_error (Str.split Str.LF data) k = Some line' ->
      getToken settings line' <> Some ("endif", e, c, l)) ->
  exists msg loc,
    fst (onLoad path data w)
    = Rejected (reported path (snd (onLoad path data w)))
               [mkMessage msg loc].
Proof.
  intros Hl Ht Hno.
  pose proof (onLoad_not_diverged path data w) as Hnd.
  unfold onLoad in *. unfold format in *.
  destruct (suppressed (Str.split Str.LF data) (mkState w [] []))
    as [[remove|e|] st] eqn:Hs; cbn [fst snd] in *.
  - destruct (format_loop_if_closed _ _ _ _ _ _ _ _ _ _ _ _ Hs (Nat.le_0_l j)
                Hl Ht) as (end_ & line' & e & c & l & Hlt & Hl' & Ht').
    now elim (Hno end_ line' e c l).
  - apply format_loop_throws_located in Hs as (loc & Hloc & _).
    rewrite Hloc. eauto.
  - now elim Hnd.
Qed.

(** X14. During one [onLoad] the expressions are passed to the evaluator
    in the order of their lines, and no line has its expression evaluated
    twice: the lines of the calls of [evalExpression] increase strictly. *)
Theorem expressions_evaluated_in_line_order path data w :
  StronglySorted lt (evaluations (trace (snd (onLoad path data w)))).
Proof.
  rewrite snd_onLoad. unfold suppressed.
  apply format_loop_evaluated. split; constructor.
Qed.

End Plugin.

Arguments mkState {World}.
Arguments world {World}.
Arguments warnings {World}.
Arguments trace {World}.
Arguments note {World}.
Arguments warn {World}.
Arguments evalExpression {World}.
Arguments parseIf_loop {World}.
Arguments parseIf {World}.
Arguments suppressed {World}.
Arguments format {World}.
Arguments onLoad {World}.
Arguments onLoadCallback {World}.
Arguments reported {World}.
Arguments scanned {World}.

(** * The plugin on the stand-in engine *)

(** [onLoad] of the default plugin on a file named [a.ts], the engine having
    run nothing yet. *)
Abbreviation demo lines :=
  (onLoad Demo.newFunction defaultSettings "a.ts" (Demo.file lines) 0).

Abbreviation demo_start := (mkState 0 [] []).

Example getToken_if :
  getToken defaultSettings "///#if X === 1" = Some ("if", "X === 1", 0, 14).
Proof. reflexivity. Qed.

Example getToken_indented :
  getToken defaultSettings "  /// #else  " = Some ("else", "", 2, 11).
Proof. reflexivity. Qed.

Example getToken_plain :
  getToken defaultSettings "// #if X" = None.
Proof. reflexivity. Qed.

Example getToken_double :
  getToken (Settings None (Some false) None) "a // #warn  be careful "
  = Some ("warn", "be careful", 2, 21).
Proof. reflexivity. Qed.

(** The example of the documentation: five lines in, five lines out; [a] is
    suppressed and [b] survives. *)
Example demo_if_else :
  fst (demo Demo.if_else)
  = Loaded (Demo.file ["/////#if false"; "//a"; "/////#else"; "b";
                       "/////#endif"])
           [] "ts".
Proof. reflexivity. Qed.

Example demo_if_else_spaces :
  fst (onLoad Demo.newFunction (Settings None None (Some true)) "a.ts"
              (Demo.file Demo.if_else) 0)
  = Loaded (Demo.file ["            "; " "; "        "; "b"; "         "])
           [] "ts".
Proof. reflexivity. Qed.

(** A warning in a branch that is not taken is not reported. *)
Example demo_inactive_warning :
  fst (demo Demo.inactive_warning)
  = Loaded (Demo.file ["/////#if false"; "/////#warning never";
                       "/////#endif"])
           [] "ts".
Proof. reflexivity. Qed.

(** A file that cannot be read: the rejection of [readFile] leaves the
    callback. *)
Example demo_missing_file :
  fst (onLoadCallback Demo.newFunction defaultSettings Demo.readFile "b.ts" 0)
  = Uncaught Demo.missing.
Proof. reflexivity. Qed.

Example demo_read_file :
  onLoadCallback Demo.newFunction defaultSettings Demo.readFile "a.ts" 0
  = demo Demo.if_else.
Proof. reflexivity. Qed.

Lemma format_preserves_line_count_witness :
  length (Str.split Str.LF
            (Demo.file ["/////#if false"; "//a"; "/////#else"; "b";
                        "/////#endif"]))
  = length (Str.split Str.LF (Demo.file Demo.if_else)).
Proof.
  apply (format_preserves_line_count nat Demo.newFunction defaultSettings
           (Demo.file Demo.if_else) demo_start _ (snd (demo Demo.if_else))).
  reflexivity.
Defined.

Lemma format_renders_each_line_witness :
  exists remove,
    suppressed Demo.newFunction defaultSettings
               (Str.split Str.LF (Demo.file Demo.if_else)) demo_start
    = (Return remove, snd (demo Demo.if_else)) /\
    forall i e,
      nth_error (Str.split Str.LF (Demo.file Demo.if_else)) i = Some e ->
      exists e',
        nth_error
          (Str.split Str.LF
             (Demo.file ["/////#if false"; "//a"; "/////#else"; "b";
                         "/////#endif"])) i = Some e' /\
        if Str.includes remove i then
          match fillWithSpaces defaultSettings with
          | Some true =>
              e' = Str.spaces (String.length e) /\
              String.length e' = String.length e
          | _ => e' = ("//" ++ e)%string
          end
        else e' = e.
Proof.
  apply (format_renders_each_line nat Demo.newFunction defaultSettings
           (Demo.file Demo.if_else) demo_start _ (snd (demo Demo.if_else))).
  reflexivity.
Defined.



(** C4. In [Demo.nested_in_inactive] the inner block is parsed with
    [ignore] set, and yet the expression of its [if] is passed to the
    evaluator; as [UNSET] is not defined, the file is rejected. *)
Theorem ignored_nested_if_is_evaluated :
  demo Demo.nested_in_inactive
  = (Rejected []
       [mkMessage "UNSET is not defined"
          (mkLocation (Some "a.ts") 2 "///#if UNSET" (Some 0) (Some 12))],
     mkState 2 []
       [Scan 0 0 false false false; Eval 0 "false";
        Scan 0 1 false true false;
        Scan 1 1 true false false; Eval 1 "UNSET"]).
Proof. reflexivity. Qed.

(** C5. In [Demo.nested_unterminated] the frame that runs off the end is the
    one opened at line 4 (index 3, as the message says), and the error is
    located at line 2, where the enclosing frame opens. *)
Theorem nested_unterminated_if_located_at_outer :
  fst (demo Demo.nested_unterminated)
  = Rejected []
      [mkMessage "Unterminated #if found on line 3"
         (mkLocation (Some "a.ts") 2 "///#if true" (Some 0) (Some 11))].
Proof. reflexivity. Qed.

(** C6. In [Demo.quoted_elif] the expression of the [elif] of line 3 makes
    [new Function] throw, and the error is located at line 1, where the
    frame opens. *)
Theorem rejected_expression_located_at_frame_start :
  getToken defaultSettings
           ("///#elif MODE === " ++ Demo.quoted "a")%string
  = Some ("elif", ("MODE === " ++ Demo.quoted "a")%string, 0, 21)
  /\ fst (demo Demo.quoted_elif)
     = Rejected []
         [mkMessage "missing ) after argument list"
            (mkLocation (Some "a.ts") 1 "///#if false" (Some 0) (Some 12))].
Proof. split; reflexivity. Qed.

Lemma error_directive_rejects_file_witness :
  fst (demo Demo.warning_then_error)
  = Rejected (reported "a.ts" (snd (demo Demo.warning_then_error)))
             [mkMessage "boom"
                (mkLocation (Some "a.ts") (2 + 1) "///#error boom"
                            (Some 0) (Some 14))].
Proof.
  apply (error_directive_rejects_file nat Demo.newFunction defaultSettings
           "a.ts" (Demo.file Demo.warning_then_error) 0 0 2 true
           "///#error boom" "error" "boom" 0 14).
  - vm_compute. tauto.
  - reflexivity.
  - reflexivity.
  - now left.
Defined.

Lemma warning_directive_diagnostics_witness :
  filter (fun msg => (line_of msg =? 1 + 1)%nat)
         (reported "a.ts" (snd (demo Demo.warning_then_error)))
  = [mkMessage "careful"
       (mkLocation (Some "a.ts") (1 + 1) "///#warning careful"
                   (Some 0) (Some 19))].
Proof.
  apply (warning_directive_diagnostics nat Demo.newFunction defaultSettings
           "a.ts" (Demo.file Demo.warning_then_error) 0
           0 0 false 1 false true [] demo_start
           "///#warning careful" "warning" "careful" 0 19).
  - reflexivity.
  - reflexivity.
  - left. reflexivity.
  - vm_compute. tauto.
Defined.

(** C9, as stated, fails: the directive of line 1 of
    [Demo.top_level_warning] is outside every [if] block; it is not in the
    suppression list and it reaches the output unchanged. *)
Lemma top_level_directive_survives :
  getToken defaultSettings "///#warning top" = Some ("warning", "top", 0, 15)
  /\ suppressed Demo.newFunction defaultSettings
                (Str.split Str.LF (Demo.file Demo.top_level_warning)) demo_start
     = (Return [], demo_start)
  /\ fst (demo Demo.top_level_warning)
     = Loaded (Demo.file ["///#warning top"; "x"]) [] "ts"
  /\ ~ (forall i line td remove st,
          suppressed Demo.newFunction defaultSettings
                     (Str.split Str.LF (Demo.file Demo.top_level_warning))
                     demo_start
          = (Return remove, st) ->
          nth_error (Str.split Str.LF (Demo.file Demo.top_level_warning)) i
          = Some line ->
          getToken defaultSettings line = Some td ->
          Str.includes remove i = true).
Proof.
  repeat split; try reflexivity.
  intros H.
  specialize (H 0 "///#warning top" ("warning", "top", 0, 15) [] demo_start
                eq_refl eq_refl eq_refl).
  discriminate.
Qed.

Lemma scanned_directive_suppressed_witness :
  exists remove,
    suppressed Demo.newFunction defaultSettings
               (Str.split Str.LF (Demo.file Demo.if_else)) demo_start
    = (Return remove, snd (demo Demo.if_else)) /\
    (Str.includes remove 2 = true <-> scanned (snd (demo Demo.if_else)) 2) /\
    nth_error
      (Str.split Str.LF
         (Demo.file ["/////#if false"; "//a"; "/////#else"; "b";
                     "/////#endif"])) 2
    = Some (if Str.includes remove 2 then
              match fillWithSpaces defaultSettings with
              | Some true => Str.spaces (String.length "///#else")
              | _ => ("//" ++ "///#else")%string
              end
            else "///#else").
Proof.
  apply (scanned_directive_suppressed nat Demo.newFunction defaultSettings
           "a.ts" (Demo.file Demo.if_else) 0 _ [] "ts" 2 "///#else"
           ("else", "", 0, 8));
    reflexivity.
Defined.

Lemma inactive_error_directive_is_skipped_witness :
  parseIf_loop Demo.newFunction defaultSettings Demo.inactive_error
               2 0 false 1 true false [0] demo_start
  = (Return (2, [0; 1; 1; 2; 2]),
     mkState 0 [] [Scan 0 1 false true false; Scan 0 2 false true false])
  /\ 1 < 2 /\ In 1 [0; 1; 1; 2; 2].
Proof.
  destruct (inactive_error_directive_is_skipped nat Demo.newFunction
              defaultSettings Demo.inactive_error 1 0 false 1 true false [0]
              demo_start "///#error boom" "error" "boom" 0 14
              eq_refl eq_refl (or_introl eq_refl) eq_refl) as (Hstep & Hret).
  split; [rewrite Hstep; reflexivity|].
  destruct (Hret 2 [0; 1; 1; 2; 2]
              (mkState 0 []
                 [Scan 0 1 false true false; Scan 0 2 false true false])
              eq_refl) as (Hlt & Hin & _).
  split; [exact Hlt | exact Hin].
Defined.

(** * The further properties on the stand-in engine *)

Lemma content_line_follows_branch_witness :
  (forall start ignore prune done,
      In (Scan start 1 ignore prune done) (trace (snd (demo Demo.if_else))) ->
      nth_error
        (Str.split Str.LF
           (Demo.file ["/////#if false"; "//a"; "/////#else"; "b";
                       "/////#endif"])) 1
      = Some (if prune || ignore then ("//" ++ "a")%string else "a")) /\
  (~ scanned (snd (demo Demo.if_else)) 1 ->
   nth_error
     (Str.split Str.LF
        (Demo.file ["/////#if false"; "//a"; "/////#else"; "b";
                    "/////#endif"])) 1
   = Some "a").
Proof.
  apply (content_line_follows_branch nat Demo.newFunction defaultSettings
           "a.ts" (Demo.file Demo.if_else) 0 _ [] "ts" 1 "a");
    reflexivity.
Defined.

Lemma reported_warning_has_directive_witness :
  exists start i done line token column length,
    In (Scan start i false false done)
       (trace (snd (demo Demo.warning_then_error))) /\
    nth_error (Str.split Str.LF (Demo.file Demo.warning_then_error)) i
    = Some line /\
    getToken defaultSettings line = Some (token, "careful", column, length) /\
    (token = "warning" \/ token = "warn") /\
    mkLocation (Some "a.ts") 2 "///#warning careful" (Some 0) (Some 19)
    = mkLocation (Some "a.ts") (i + 1) line (Some column) (Some length).
Proof.
  apply (reported_warning_has_directive nat Demo.newFunction defaultSettings
           "a.ts" (Demo.file Demo.warning_then_error) 0
           (mkMessage "careful"
              (mkLocation (Some "a.ts") 2 "///#warning careful"
                          (Some 0) (Some 19)))).
  vm_compute. left. reflexivity.
Defined.

Lemma inactive_frame_is_silent_and_suppressed_witness :
  warnings (snd (parseIf_loop Demo.newFunction defaultSettings
                              Demo.inactive_error 11 0 true 0 false false
                              [] demo_start))
  = warnings demo_start /\
  forall end_ removed st',
    parseIf_loop Demo.newFunction defaultSettings Demo.inactive_error
                 11 0 true 0 false false [] demo_start
    = (Return (end_, removed), st') ->
    forall j, 0 <= j <= end_ -> In j removed.
Proof.
  apply (inactive_frame_is_silent_and_suppressed nat Demo.newFunction
           defaultSettings Demo.inactive_error 11 0 true 0 false false
           [] demo_start).
  left. reflexivity.
Defined.

Lemma else_branch_complements_match_witness :
  parseIf_loop Demo.newFunction defaultSettings Demo.else_after_match
               (S 10) 0 false 2 false true [0] demo_start
  = parseIf_loop Demo.newFunction defaultSettings Demo.else_after_match
                 10 0 false 3 true true
                 (push_if (false || false) [0] 2 ++ [2])
                 (note (Scan 0 2 false false true) demo_start) /\
  (true = true ->
   warnings (snd (parseIf_loop Demo.newFunction defaultSettings
                               Demo.else_after_match (S 10) 0 false 2 false
                               true [0] demo_start))
   = warnings demo_start /\
   forall end_ removed st',
     parseIf_loop Demo.newFunction defaultSettings Demo.else_after_match
                  (S 10) 0 false 2 false true [0] demo_start
     = (Return (end_, removed), st') ->
     forall j, 2 <= j <= end_ -> In j removed).
Proof.
  apply (else_branch_complements_match nat Demo.newFunction defaultSettings
           Demo.else_after_match 10 0 2 false true [0] demo_start "///#else" "" 0 8);
    [reflexivity|reflexivity|lia].
Defined.

Lemma text_without_if_is_unchanged_witness :
  format Demo.newFunction defaultSettings (Demo.file Demo.top_level_warning)
         demo_start
  = (Return (Demo.file Demo.top_level_warning), demo_start) /\
  exists loader,
    demo Demo.top_level_warning
    = (Loaded (Demo.file Demo.top_level_warning) [] loader, demo_start).
Proof.
  apply (text_without_if_is_unchanged nat Demo.newFunction defaultSettings
           "a.ts" (Demo.file Demo.top_level_warning) 0).
  intros line Hin. vm_compute in Hin.
  destruct Hin as [<-|[<-|[]]]; vm_compute; discriminate.
Defined.

Lemma parseIf_returns_at_endif_witness :
  0 <= 4 < length Demo.if_else /\
  (exists line expression column length,
      nth_error Demo.if_else 4 = Some line /\
      getToken defaultSettings line
      = Some ("endif", expression, column, length)) /\
  In 4 [0; 1; 2; 2; 4] /\
  forall j, In j [0; 1; 2; 2; 4] -> 0 <= j <= 4.
Proof.
  apply (parseIf_returns_at_endif nat Demo.newFunction defaultSettings
           Demo.if_else 0 false demo_start 4 [0; 1; 2; 2; 4]
           (snd (parseIf Demo.newFunction defaultSettings Demo.if_else 0
                         false demo_start))).
  reflexivity.
Defined.


Lemma getToken_spans_comment_to_end_of_line_witness :
  (exists before after,
      "  /// #else  " = (before ++ "//" ++ after)%string /\
      2 = String.length before /\
      11 = 2 + String.length after) /\
  2 + 11 = String.length "  /// #else  ".
Proof.
  apply (getToken_spans_comment_to_end_of_line defaultSettings
           "  /// #else  " "else" "" 2 11); reflexivity.
Defined.

Lemma if_directive_is_suppressed_witness :
  nth_error
    (Str.split Str.LF
       (Demo.file ["/////#if false"; "//a"; "/////#else"; "b";
                   "/////#endif"])) 0
  = Some ("//" ++ "///#if false")%string.
Proof.
  apply (if_directive_is_suppressed nat Demo.newFunction defaultSettings
           "a.ts" (Demo.file Demo.if_else) 0 _ [] "ts" 0 "///#if false"
           "false" 0 12); reflexivity.
Defined.

Lemma load_with_fillWithSpaces_is_idempotent_witness :
  onLoad Demo.newFunction (Settings None None (Some true)) "a.ts"
         (Demo.file ["            "; " "; "        "; "b"; "         "]) 7
  = (Loaded (Demo.file ["            "; " "; "        "; "b";
                        "         "]) [] "ts",
     mkState 7 [] []).
Proof.
  refine (load_with_fillWithSpaces_is_idempotent nat Demo.newFunction
            (Settings None None (Some true)) "a.ts" (Demo.file Demo.if_else)
            0 _ [] "ts" _ _ _ 7); reflexivity.
Defined.

Lemma unclosed_if_rejects_file_witness :
  exists msg loc,
    fst (demo Demo.nested_unterminated)
    = Rejected (reported "a.ts" (snd (demo Demo.nested_unterminated)))
               [mkMessage msg loc].
Proof.
  apply (unclosed_if_rejects_file nat Demo.newFunction defaultSettings
           "a.ts" (Demo.file Demo.nested_unterminated) 0 3 "///#if true"
           "true" 0 11).
  - reflexivity.
  - reflexivity.
  - intros k line' e c l Hk Hl.
    destruct k as [|[|[|[|[|k]]]]]; try lia; vm_compute in Hl;
      [|destruct k; discriminate].
    inversion Hl; subst. vm_compute. discriminate.
Defined.
